(** * Water-impact simulation ([splash_simu.py]): model and properties

    The script simulates a cone or a cylinder falling into water.  This file
    embeds its configuration block, the submerged-volume function
    [V_immerge], the drag interpolation [k_effectif], the right-hand side
    [system], the per-sample acceleration pass and the extraction of the
    impact metrics, and proves the properties stated about them.

    Numbers.  The script computes with binary floating-point numbers; here
    they are idealised as real numbers ([R]), [np.pi] as [PI].  Rounding is
    not modelled.

    Failures.  Every division whose divisor is not a literal is fallible:
    [Raise ZeroDivisionError] records that a division by zero was
    evaluated.  Python floats raise [ZeroDivisionError] there and NumPy
    scalars yield [inf] or [nan] with a [RuntimeWarning]; either way the
    value is no longer a real number and the model stops at that point. *)

From Stdlib Require Import Reals Lra Psatz List String Bool Arith Lia.
Import ListNotations.

Open Scope R_scope.

(** ** Results of fallible evaluations *)

Inductive error : Type :=
| ZeroDivisionError   (* a division by zero was evaluated *)
| ValueError          (* NumPy reduction or argmax/argmin of an empty array *)
| IndexError          (* array index out of range *)
| InvalidValue.       (* np.sqrt of a negative number *)

Inductive result (T : Type) : Type :=
| Val : T -> result T
| Raise : error -> result T.

Arguments Val {T} _.
Arguments Raise {T} _.

Definition bind {T U : Type} (x : result T) (f : T -> result U) : result U :=
  match x with
  | Val a => f a
  | Raise e => Raise e
  end.

Notation "x <- e1 ;; e2" := (bind e1 (fun x => e2))
  (at level 61, e1 at next level, right associativity).

Fixpoint mapM {T U : Type} (f : T -> result U) (l : list T) : result (list U) :=
  match l with
  | [] => Val []
  | x :: l' => y <- f x ;; ys <- mapM f l' ;; Val (y :: ys)
  end.

(** Python's [x / y] on numbers. *)
Definition div (x y : R) : result R :=
  if Req_dec_T y 0 then Raise ZeroDivisionError else Val (x / y).

(** ** Configuration (lines 91-115) *)

Record Config : Type := {
  objet : string;
  g : R;
  rho_eau : R;
  rho_air : R;
  C_d : R;
  r : R;
  m : R;
  h_cone : R;
  h : R;
  SHAPE : string;
  z0 : R;
  v0 : R;
  CHOC_BRUTAL : bool
}.

Definition is_cone (c : Config) : bool := String.eqb (SHAPE c) "cone".

(** [A = np.pi*r**2] *)
Definition A (c : Config) : R := PI * r c ^ 2.

(** [V_total]: [1/3 * np.pi * r**2 * h_cone] for the cone, [np.pi * r**2 * h]
    for every other shape tag. *)
Definition V_total (c : Config) : R :=
  if is_cone c then 1 / 3 * PI * r c ^ 2 * h_cone c
  else PI * r c ^ 2 * h c.

Definition k_air (c : Config) : R := 0.5 * rho_air c * C_d c * A c.
Definition k_eau (c : Config) : R := 0.5 * rho_eau c * C_d c * A c.

(** The height the immersion ramps divide by: [h_cone] for the cone, [h]
    otherwise. *)
Definition h_ref (c : Config) : R := if is_cone c then h_cone c else h c.

(** The derived constants the script computes before it integrates.  The
    script checks nothing here: the stage has no failing path. *)
Record Derived : Type := {
  d_A : R;
  d_V_total : R;
  d_k_air : R;
  d_k_eau : R
}.

Definition configure (c : Config) : result Derived :=
  Val {| d_A := A c; d_V_total := V_total c;
         d_k_air := k_air c; d_k_eau := k_eau c |}.

(** ** Simulation functions (lines 121-161) *)

Section Simulation.

Variable c : Config.

Definition V_immerge (z : R) : result R :=
  if CHOC_BRUTAL c then
    Val (if Rge_dec z 0 then V_total c else 0)
  else if Rle_dec z 0 then Val 0
  else if is_cone c then
    if Rlt_dec z (h_cone c) then
      q <- div z (h_cone c) ;; Val (V_total c * q ^ 3)
    else Val (V_total c)
  else
    if Rlt_dec z (h c) then Val (PI * r c ^ 2 * z)
    else Val (V_total c).

Definition k_effectif (z : R) : result R :=
  if CHOC_BRUTAL c then
    Val (if Rge_dec z 0 then k_eau c else k_air c)
  else if Rle_dec z 0 then Val (k_air c)
  else
    alpha <- (if is_cone c
              then q <- div z (h_cone c) ;; Val (Rmin q 1)
              else q <- div z (h c) ;; Val (Rmin q 1)) ;;
    Val ((1 - alpha) * k_air c + alpha * k_eau c).

Definition system (t : R) (y : R * R) : result (R * R) :=
  let '(z, v) := y in
  V_imm <- V_immerge z ;;
  k <- k_effectif z ;;
  let F_archi := rho_eau c * g c * V_imm in
  let F_poids := m c * g c in
  let F_frott := k * v * Rabs v in
  a <- div (F_poids - F_archi - F_frott) (m c) ;;
  Val (v, a).

End Simulation.

(** ** The solution of the integrator and the NumPy operations on it *)

(** [solve_ivp] returns the times [sol.t] and the states [sol.y], one column
    per time: a sequence of samples.  [t], [z] and [v] are its three
    arrays. *)
Record Sample : Type := { s_t : R; s_z : R; s_v : R }.

Definition Trajectory : Type := list Sample.

Definition sol_t (sol : Trajectory) : list R := map s_t sol.
Definition sol_z (sol : Trajectory) : list R := map s_z sol.
Definition sol_v (sol : Trajectory) : list R := map s_v sol.

(** Elementwise operation on two arrays of one length. *)
Fixpoint zipWith {T U W : Type} (f : T -> U -> W) (l1 : list T) (l2 : list U)
  : list W :=
  match l1, l2 with
  | x :: l1', y :: l2' => f x y :: zipWith f l1' l2'
  | _, _ => []
  end.

(** [np.max] and [np.min]: a reduction, refused on an empty array. *)
Definition np_max (l : list R) : result R :=
  match l with
  | [] => Raise ValueError
  | x :: l' => Val (fold_left Rmax l' x)
  end.

Definition np_min (l : list R) : result R :=
  match l with
  | [] => Raise ValueError
  | x :: l' => Val (fold_left Rmin l' x)
  end.

(** [np.argmin]: the index of the first occurrence of the least value. *)
Fixpoint argmin_from (best : R) (ibest i : nat) (l : list R) : nat :=
  match l with
  | [] => ibest
  | x :: l' =>
      if Rlt_dec x best then argmin_from x i (S i) l'
      else argmin_from best ibest (S i) l'
  end.

Definition np_argmin (l : list R) : result nat :=
  match l with
  | [] => Raise ValueError
  | x :: l' => Val (argmin_from x 0 1 l')
  end.

(** [np.argmax] of a boolean array: the index of the first [True]; when
    every entry is [False] they are all maximal and the first one, index 0,
    is returned. *)
Fixpoint first_true (l : list bool) : option nat :=
  match l with
  | [] => None
  | b :: l' => if b then Some 0%nat else option_map S (first_true l')
  end.

Definition np_argmax_bool (l : list bool) : result nat :=
  match l with
  | [] => Raise ValueError
  | _ => Val (match first_true l with Some i => i | None => 0%nat end)
  end.

(** The boolean array [z >= 0]. *)
Definition ge0 (x : R) : bool := if Rge_dec x 0 then true else false.

(** [arr[i]] *)
Definition index (l : list R) (i : nat) : result R :=
  match nth_error l i with
  | Some x => Val x
  | None => Raise IndexError
  end.

Definition np_sqrt (x : R) : result R :=
  if Rlt_dec x 0 then Raise InvalidValue else Val (sqrt x).

(** ** Accelerations and impact metrics (lines 171-199) *)

Record ImpactMetrics : Type := {
  v_max : R;
  v_terminal : R;
  a_max : R;
  a_max_g : R;
  pourcentage : R;
  altitude_lancement : R;
  vitesse_init : R;
  idx_eau : nat;
  t_eau : R;
  idx_a_max : nat;
  t_a_max : R;
  duree_impact : R;
  prof_max : R;
  prof_choc : R
}.

Section Extraction.

Variable c : Config.

(** Line 175: the accelerations at the samples, array by array. *)
Definition accel (sol : Trajectory) : result (list R) :=
  let z := sol_z sol in
  let v := sol_v sol in
  Vs <- mapM (V_immerge c) z ;;
  ks <- mapM (k_effectif c) z ;;
  let weight_minus_archi := map (fun V => m c * g c - rho_eau c * g c * V) Vs in
  let frott := zipWith Rmult (zipWith Rmult ks v) (map Rabs v) in
  mapM (fun x => div x (m c)) (zipWith Rminus weight_minus_archi frott).

(** Lines 171-199. *)
Definition extract (sol : Trajectory) : result ImpactMetrics :=
  let t := sol_t sol in
  let z := sol_z sol in
  let v := sol_v sol in
  a <- accel sol ;;
  v_max' <- np_max v ;;
  q <- div (2 * m c * g c) (rho_air c * A c * C_d c) ;;
  v_terminal' <- np_sqrt q ;;
  a_max' <- np_min a ;;
  let a_max_g' := Rabs a_max' / 9.81 in
  pourcentage' <- div (100 * v_max') v_terminal' ;;
  let altitude_lancement' := Rabs (z0 c) in
  let vitesse_init' := v0 c in
  idx_eau' <- np_argmax_bool (map ge0 z) ;;
  t_eau' <- index t idx_eau' ;;
  idx_a_max' <- np_argmin a ;;
  t_a_max' <- index t idx_a_max' ;;
  let duree_impact' := t_a_max' - t_eau' in
  prof_max' <- np_max z ;;
  prof_choc' <- index z idx_a_max' ;;
  Val {| v_max := v_max'; v_terminal := v_terminal'; a_max := a_max';
         a_max_g := a_max_g'; pourcentage := pourcentage';
         altitude_lancement := altitude_lancement';
         vitesse_init := vitesse_init';
         idx_eau := idx_eau'; t_eau := t_eau';
         idx_a_max := idx_a_max'; t_a_max := t_a_max';
         duree_impact := duree_impact';
         prof_max := prof_max'; prof_choc := prof_choc' |}.

End Extraction.

(** ** Presets of the script *)

(** The block that is active in the source: "BFS réel", cone, progressive
    immersion.  (The accent of the label is left out.) *)
Definition bfs_reel : Config := {|
  objet := "BFS reel";
  g := 9.81; rho_eau := 1000; rho_air := 1.225; C_d := 0.7;
  r := 0.75; m := 50; h_cone := 0.26; h := 0;
  SHAPE := "cone"; z0 := -5; v0 := 0; CHOC_BRUTAL := false |}.

(** The commented block "Ech 1" run as a cylinder with [CHOC_BRUTAL = True]. *)
Definition ech1_brutal : Config := {|
  objet := "Ech 1";
  g := 9.81; rho_eau := 1000; rho_air := 1.225; C_d := 0.9;
  r := 0.7; m := 37; h_cone := 0; h := 0.5;
  SHAPE := "cylinder"; z0 := -5; v0 := 0; CHOC_BRUTAL := true |}.

(** The commented block "Ech 2" ([h_cone = 0], [h = 0.25]) with the shape
    and mode lines of the script left as they are: cone, progressive. *)
Definition ech2_cone : Config := {|
  objet := "Ech 2";
  g := 9.81; rho_eau := 1000; rho_air := 1.225; C_d := 0.9;
  r := 0.7; m := 10; h_cone := 0; h := 0.25;
  SHAPE := "cone"; z0 := -5; v0 := 0; CHOC_BRUTAL := false |}.

(** ** What the properties are stated with *)

(** The parameter domain of the data model: positive mass, radius, drag
    coefficient, gravity and densities; a reference height that is not
    negative, and positive when the immersion is progressive. *)
Definition valid_config (c : Config) : Prop :=
  0 < m c /\ 0 < r c /\ 0 < C_d c /\ 0 < g c /\
  0 < rho_eau c /\ 0 < rho_air c /\ 0 <= h_ref c /\
  (CHOC_BRUTAL c = false -> 0 < h_ref c).

(** The value of a result, for statements about functions of a real
    variable; used only where the result is shown to be a value. *)
Definition value (x : result R) : R :=
  match x with
  | Val a => a
  | Raise _ => 0
  end.

(** [clamp x lo hi], as the blend fraction is described. *)
Definition clamp (x lo hi : R) : R := Rmin (Rmax x lo) hi.

(** The linear interpolation between the two drag coefficients. *)
Definition blend (c : Config) (alpha : R) : R :=
  (1 - alpha) * k_air c + alpha * k_eau c.

(** The acceleration at one sample as the force law gives it: the second
    component of [system] at the state of the sample. *)
Definition system_accel (c : Config) (s : Sample) : result R :=
  yv <- system c (s_t s) (s_z s, s_v s) ;; Val (snd yv).

(** The accelerations of a trajectory, sample by sample, through [system]. *)
Definition accel_by_system (c : Config) (sol : Trajectory) : result (list R) :=
  mapM (system_accel c) sol.

(** A short trajectory that stays above the water: two samples, at heights
    5 and 4 above the surface. *)
Definition sol_dry : Trajectory :=
  [ {| s_t := 0; s_z := -5; s_v := 0 |};
    {| s_t := 1; s_z := -4; s_v := 2 |} ].

(** A short trajectory that enters the water at its second sample. *)
Definition sol_wet : Trajectory :=
  [ {| s_t := 0; s_z := -1; s_v := 4 |};
    {| s_t := 1; s_z := 1; s_v := 3 |};
    {| s_t := 2; s_z := 2; s_v := 1 |} ].

(** The configuration with another shape tag, everything else kept. *)
Definition with_shape (c : Config) (tag : string) : Config := {|
  objet := objet c;
  g := g c; rho_eau := rho_eau c; rho_air := rho_air c; C_d := C_d c;
  r := r c; m := m c; h_cone := h_cone c; h := h c;
  SHAPE := tag; z0 := z0 c; v0 := v0 c; CHOC_BRUTAL := CHOC_BRUTAL c |}.

(** The second component of [system] as a function of the state, for
    statements about real functions; used where [system] is a value. *)
Definition dvdt (c : Config) (z v : R) : R :=
  match system c 0 (z, v) with
  | Val yv => snd yv
  | Raise _ => 0
  end.

(** The quantity under the square root of the terminal velocity
    (line 178). *)
Definition terminal_quotient (c : Config) : R :=
  2 * m c * g c / (rho_air c * A c * C_d c).

(** Sample times that increase strictly along the trajectory. *)
Definition ascending (sol : Trajectory) : Prop :=
  forall (i j : nat) (si sj : Sample),
    (i < j)%nat -> nth_error sol i = Some si -> nth_error sol j = Some sj ->
    s_t si < s_t sj.

(** The block "Ech 1" with a shape tag the script does not know. *)
Definition ech1_sphere : Config := with_shape ech1_brutal "sphere".


(** * Properties *)

(** ** Shape tag and derived constants *)

Lemma is_cone_true (c : Config) : is_cone c = true <-> SHAPE c = "cone"%string.
Proof. unfold is_cone. apply String.eqb_eq. Qed.

Lemma is_cone_false (c : Config) : is_cone c = false <-> SHAPE c <> "cone"%string.
Proof. unfold is_cone. apply String.eqb_neq. Qed.

Lemma A_nonneg (c : Config) : 0 <= A c.
Proof.
  unfold A. pose proof PI_RGT_0. pose proof (pow2_ge_0 (r c)). nra.
Qed.

Lemma A_pos (c : Config) : r c <> 0 -> 0 < A c.
Proof.
  intros Hr. unfold A. pose proof PI_RGT_0.
  assert (0 < r c ^ 2).
  { replace (r c ^ 2) with (r c * r c) by ring.
    destruct (Rdichotomy _ _ Hr); nra. }
  nra.
Qed.

Lemma V_total_href (c : Config) :
  V_total c = (if is_cone c then 1 / 3 else 1) * A c * h_ref c.
Proof. unfold V_total, h_ref, A. destruct (is_cone c); ring. Qed.

Lemma V_total_nonneg (c : Config) : 0 <= h_ref c -> 0 <= V_total c.
Proof.
  intros Hh. rewrite V_total_href. pose proof (A_nonneg c).
  destruct (is_cone c); nra.
Qed.

Lemma k_air_pos (c : Config) :
  0 < rho_air c -> 0 < C_d c -> r c <> 0 -> 0 < k_air c.
Proof.
  intros H1 H2 H3. unfold k_air. pose proof (A_pos c H3).
  assert (0 < rho_air c * C_d c) by nra. nra.
Qed.

Lemma k_eau_pos (c : Config) :
  0 < rho_eau c -> 0 < C_d c -> r c <> 0 -> 0 < k_eau c.
Proof.
  intros H1 H2 H3. unfold k_eau. pose proof (A_pos c H3).
  assert (0 < rho_eau c * C_d c) by nra. nra.
Qed.

Lemma k_air_le_k_eau (c : Config) :
  rho_air c <= rho_eau c -> 0 <= C_d c -> k_air c <= k_eau c.
Proof.
  intros H1 H2. unfold k_air, k_eau. pose proof (A_nonneg c).
  assert (0 <= C_d c * A c) by nra. nra.
Qed.

(** ** Division *)

Lemma div_nonzero (x y : R) : y <> 0 -> div x y = Val (x / y).
Proof. intros Hy. unfold div. destruct (Req_dec_T y 0); [contradiction | reflexivity]. Qed.

Lemma div_zero (x : R) : div x 0 = Raise ZeroDivisionError.
Proof. unfold div. destruct (Req_dec_T 0 0); [reflexivity | contradiction]. Qed.

Lemma div_cases (x y : R) :
  (y <> 0 /\ div x y = Val (x / y)) \/ (y = 0 /\ div x y = Raise ZeroDivisionError).
Proof.
  unfold div. destruct (Req_dec_T y 0); [right | left]; split; auto.
Qed.

(** ** Submerged volume: the branches of [V_immerge] *)

Lemma V_immerge_brutal (c : Config) (z : R) :
  CHOC_BRUTAL c = true ->
  V_immerge c z = Val (if Rge_dec z 0 then V_total c else 0).
Proof. intros Hb. unfold V_immerge. rewrite Hb. reflexivity. Qed.

Lemma V_immerge_air (c : Config) (z : R) :
  CHOC_BRUTAL c = false -> z <= 0 -> V_immerge c z = Val 0.
Proof.
  intros Hb Hz. unfold V_immerge. rewrite Hb.
  destruct (Rle_dec z 0); [reflexivity | contradiction].
Qed.

Lemma V_immerge_cone_ramp (c : Config) (z : R) :
  CHOC_BRUTAL c = false -> is_cone c = true -> 0 < z < h_cone c ->
  V_immerge c z = Val (V_total c * (z / h_cone c) ^ 3).
Proof.
  intros Hb Hs [Hz Hh]. unfold V_immerge. rewrite Hb, Hs.
  destruct (Rle_dec z 0); [lra |].
  destruct (Rlt_dec z (h_cone c)); [| contradiction].
  rewrite div_nonzero by lra. reflexivity.
Qed.

Lemma V_immerge_cylinder_ramp (c : Config) (z : R) :
  CHOC_BRUTAL c = false -> is_cone c = false -> 0 < z < h c ->
  V_immerge c z = Val (PI * r c ^ 2 * z).
Proof.
  intros Hb Hs [Hz Hh]. unfold V_immerge. rewrite Hb, Hs.
  destruct (Rle_dec z 0); [lra |].
  destruct (Rlt_dec z (h c)); [reflexivity | contradiction].
Qed.

Lemma V_immerge_full (c : Config) (z : R) :
  CHOC_BRUTAL c = false -> 0 < z -> h_ref c <= z ->
  V_immerge c z = Val (V_total c).
Proof.
  intros Hb Hz Hh. unfold V_immerge, h_ref in *. rewrite Hb.
  destruct (Rle_dec z 0); [lra |].
  destruct (is_cone c).
  - destruct (Rlt_dec z (h_cone c)); [lra | reflexivity].
  - destruct (Rlt_dec z (h c)); [lra | reflexivity].
Qed.

(** [V_immerge] divides only below a positive [h_cone]: it never fails. *)
Lemma V_immerge_total (c : Config) (z : R) : exists V, V_immerge c z = Val V.
Proof.
  unfold V_immerge.
  destruct (CHOC_BRUTAL c); [eexists; reflexivity |].
  destruct (Rle_dec z 0); [eexists; reflexivity |].
  destruct (is_cone c).
  - destruct (Rlt_dec z (h_cone c)); [| eexists; reflexivity].
    rewrite div_nonzero by lra. eexists; reflexivity.
  - destruct (Rlt_dec z (h c)); eexists; reflexivity.
Qed.

(** C4.  Progressive immersion with a positive reference height: the
    submerged volume is 0 above the surface; for the cone it is
    [V_total * (z / h_cone)^3] while [0 <= z < h_cone] and [V_total] from
    [h_cone] on; for the cylinder it is [pi r^2 z] while [0 <= z < h] and
    [V_total] from [h] on; [V_total] is [1/3 pi r^2 h_cone] for the cone
    and [pi r^2 h] for the cylinder. *)
Theorem V_immerge_progressive_cases (c : Config) (z : R) :
  CHOC_BRUTAL c = false -> 0 < h_ref c ->
  (z < 0 -> V_immerge c z = Val 0) /\
  (SHAPE c = "cone"%string ->
     V_total c = 1 / 3 * PI * r c ^ 2 * h_cone c /\
     (0 <= z < h_cone c ->
        V_immerge c z = Val (V_total c * (z / h_cone c) ^ 3)) /\
     (h_cone c <= z -> V_immerge c z = Val (V_total c))) /\
  (SHAPE c = "cylinder"%string ->
     V_total c = PI * r c ^ 2 * h c /\
     (0 <= z < h c -> V_immerge c z = Val (PI * r c ^ 2 * z)) /\
     (h c <= z -> V_immerge c z = Val (V_total c))).
Proof.
  intros Hb Hh. split; [| split].
  - intros Hz. apply V_immerge_air; [exact Hb | lra].
  - intros Hs. apply is_cone_true in Hs.
    unfold h_ref in Hh. rewrite Hs in Hh.
    split; [| split].
    + unfold V_total. rewrite Hs. reflexivity.
    + intros [[Hz | Hz] Hlt].
      * apply V_immerge_cone_ramp; auto.
      * subst z. rewrite V_immerge_air by (auto; lra).
        f_equal. unfold Rdiv. ring.
    + intros Hz. apply V_immerge_full; [exact Hb | lra |].
      unfold h_ref. rewrite Hs. exact Hz.
  - intros Hs.
    assert (Hc : is_cone c = false).
    { apply is_cone_false. rewrite Hs. discriminate. }
    unfold h_ref in Hh. rewrite Hc in Hh.
    split; [| split].
    + unfold V_total. rewrite Hc. reflexivity.
    + intros [[Hz | Hz] Hlt].
      * apply V_immerge_cylinder_ramp; auto.
      * subst z. rewrite V_immerge_air by (auto; lra).
        f_equal. ring.
    + intros Hz. apply V_immerge_full; [exact Hb | lra |].
      unfold h_ref. rewrite Hc. exact Hz.
Qed.

(** ** Drag coefficient: the branches of [k_effectif] *)

Lemma k_effectif_brutal (c : Config) (z : R) :
  CHOC_BRUTAL c = true ->
  k_effectif c z = Val (if Rge_dec z 0 then k_eau c else k_air c).
Proof. intros Hb. unfold k_effectif. rewrite Hb. reflexivity. Qed.

Lemma k_effectif_air (c : Config) (z : R) :
  CHOC_BRUTAL c = false -> z <= 0 -> k_effectif c z = Val (k_air c).
Proof.
  intros Hb Hz. unfold k_effectif. rewrite Hb.
  destruct (Rle_dec z 0); [reflexivity | contradiction].
Qed.

Lemma k_effectif_wet (c : Config) (z : R) :
  CHOC_BRUTAL c = false -> 0 < z -> h_ref c <> 0 ->
  k_effectif c z = Val (blend c (Rmin (z / h_ref c) 1)).
Proof.
  intros Hb Hz Hh. unfold k_effectif, h_ref, blend in *. rewrite Hb.
  destruct (Rle_dec z 0); [lra |].
  destruct (is_cone c); rewrite div_nonzero by exact Hh; reflexivity.
Qed.

(** With a zero reference height every depth below the surface divides by
    zero. *)
Lemma k_effectif_zero_height (c : Config) (z : R) :
  CHOC_BRUTAL c = false -> 0 < z -> h_ref c = 0 ->
  k_effectif c z = Raise ZeroDivisionError.
Proof.
  intros Hb Hz Hh. unfold k_effectif, h_ref in *. rewrite Hb.
  destruct (Rle_dec z 0); [lra |].
  destruct (is_cone c); rewrite Hh, div_zero; reflexivity.
Qed.

Lemma clamp_nonpos (x : R) : x <= 0 -> clamp x 0 1 = 0.
Proof.
  intros Hx. unfold clamp, Rmin, Rmax.
  destruct (Rle_dec x 0); destruct (Rle_dec _ 1); lra.
Qed.

Lemma clamp_pos (x : R) : 0 <= x -> clamp x 0 1 = Rmin x 1.
Proof.
  intros Hx. unfold clamp, Rmax.
  destruct (Rle_dec x 0); [| reflexivity].
  replace x with 0 by lra. reflexivity.
Qed.

Lemma clamp_range (x : R) : 0 <= clamp x 0 1 <= 1.
Proof.
  unfold clamp, Rmin, Rmax.
  destruct (Rle_dec x 0); destruct (Rle_dec _ 1); lra.
Qed.

Lemma clamp_monotone (x y : R) : x <= y -> clamp x 0 1 <= clamp y 0 1.
Proof.
  intros Hxy. unfold clamp, Rmin, Rmax.
  destruct (Rle_dec x 0); destruct (Rle_dec y 0);
    repeat match goal with |- context [Rle_dec ?a ?b] => destruct (Rle_dec a b) end;
    lra.
Qed.

Lemma quotient_nonpos (z hh : R) : 0 < hh -> z <= 0 -> z / hh <= 0.
Proof.
  intros Hh Hz. unfold Rdiv.
  assert (0 < / hh) by (apply Rinv_0_lt_compat; exact Hh). nra.
Qed.

Lemma quotient_pos (z hh : R) : 0 < hh -> 0 < z -> 0 < z / hh.
Proof.
  intros Hh Hz. unfold Rdiv.
  assert (0 < / hh) by (apply Rinv_0_lt_compat; exact Hh). nra.
Qed.

Lemma quotient_ge_1 (z hh : R) : 0 < hh -> hh <= z -> 1 <= z / hh.
Proof.
  intros Hh Hz. unfold Rdiv.
  assert (Hi : 0 < / hh) by (apply Rinv_0_lt_compat; exact Hh).
  assert (He : hh * / hh = 1) by (apply Rinv_r; lra).
  nra.
Qed.

Lemma quotient_monotone (x y hh : R) : 0 < hh -> x <= y -> x / hh <= y / hh.
Proof.
  intros Hh Hxy. unfold Rdiv.
  assert (0 < / hh) by (apply Rinv_0_lt_compat; exact Hh). nra.
Qed.

(** The closed form of the progressive drag coefficient. *)
Lemma k_effectif_clamp (c : Config) (z : R) :
  CHOC_BRUTAL c = false -> 0 < h_ref c ->
  k_effectif c z = Val (blend c (clamp (z / h_ref c) 0 1)).
Proof.
  intros Hb Hh. destruct (Rle_dec z 0) as [Hz | Hz].
  - rewrite k_effectif_air by assumption.
    rewrite clamp_nonpos by (apply quotient_nonpos; assumption).
    f_equal. unfold blend. ring.
  - rewrite k_effectif_wet by (auto; lra).
    rewrite clamp_pos; [reflexivity |].
    left. apply quotient_pos; lra.
Qed.

Lemma blend_monotone (c : Config) (a1 a2 : R) :
  a1 <= a2 ->
  (k_air c <= k_eau c -> blend c a1 <= blend c a2) /\
  (k_eau c <= k_air c -> blend c a2 <= blend c a1).
Proof. intros Ha. unfold blend. split; intros Hk; nra. Qed.

Lemma blend_between (c : Config) (a : R) :
  0 <= a <= 1 ->
  Rmin (k_air c) (k_eau c) <= blend c a <= Rmax (k_air c) (k_eau c).
Proof.
  intros Ha. unfold blend, Rmin, Rmax.
  destruct (Rle_dec (k_air c) (k_eau c)); nra.
Qed.

(** C5.  Progressive immersion with a positive reference height: the drag
    coefficient is [(1 - alpha) k_air + alpha k_eau] with
    [alpha = clamp (z / reference height) 0 1]; it is [k_air] for every
    [z <= 0] and [k_eau] for every [z] from the reference height on, where
    alpha is 1; the interpolation is monotonic in alpha, from the air-side
    to the water-side value. *)
Theorem k_effectif_progressive_blend (c : Config) (z : R) :
  CHOC_BRUTAL c = false -> 0 < h_ref c ->
  k_effectif c z = Val (blend c (clamp (z / h_ref c) 0 1)) /\
  (z <= 0 -> k_effectif c z = Val (k_air c)) /\
  (h_ref c <= z ->
     clamp (z / h_ref c) 0 1 = 1 /\ k_effectif c z = Val (k_eau c)) /\
  blend c 0 = k_air c /\ blend c 1 = k_eau c /\
  (forall a1 a2 : R, a1 <= a2 ->
     (k_air c <= k_eau c -> blend c a1 <= blend c a2) /\
     (k_eau c <= k_air c -> blend c a2 <= blend c a1)).
Proof.
  intros Hb Hh. split; [| split; [| split; [| split; [| split]]]].
  - apply k_effectif_clamp; assumption.
  - intros Hz. apply k_effectif_air; assumption.
  - intros Hz.
    assert (Hq : 1 <= z / h_ref c) by (apply quotient_ge_1; assumption).
    assert (Hc : clamp (z / h_ref c) 0 1 = 1).
    { rewrite clamp_pos by lra. unfold Rmin.
      destruct (Rle_dec (z / h_ref c) 1); lra. }
    split; [exact Hc |].
    rewrite k_effectif_clamp, Hc by assumption.
    f_equal. unfold blend. ring.
  - unfold blend. ring.
  - unfold blend. ring.
  - intros a1 a2 Ha. apply blend_monotone. exact Ha.
Qed.

Lemma k_effectif_between (c : Config) (z : R) :
  (CHOC_BRUTAL c = false -> 0 < h_ref c) ->
  exists k, k_effectif c z = Val k /\
            Rmin (k_air c) (k_eau c) <= k <= Rmax (k_air c) (k_eau c).
Proof.
  intros Hh. destruct (CHOC_BRUTAL c) eqn:Hb.
  - rewrite k_effectif_brutal by exact Hb.
    eexists; split; [reflexivity |].
    unfold Rmin, Rmax.
    destruct (Rge_dec z 0); destruct (Rle_dec (k_air c) (k_eau c)); lra.
  - rewrite k_effectif_clamp by auto.
    eexists; split; [reflexivity |].
    apply blend_between, clamp_range.
Qed.

(** C10.  In both modes (with a positive reference height when the
    immersion is progressive) the drag coefficient lies in the closed
    interval between [k_air = 1/2 rho_air C_d A] and
    [k_eau = 1/2 rho_eau C_d A]; with air not denser than water and a drag
    coefficient that is not negative it is never below the air-side value
    nor above the water-side value. *)
Theorem k_effectif_in_interval (c : Config) (z : R) :
  (CHOC_BRUTAL c = false -> 0 < h_ref c) ->
  k_air c = 0.5 * rho_air c * C_d c * A c /\
  k_eau c = 0.5 * rho_eau c * C_d c * A c /\
  exists k, k_effectif c z = Val k /\
    Rmin (k_air c) (k_eau c) <= k <= Rmax (k_air c) (k_eau c) /\
    (rho_air c <= rho_eau c -> 0 <= C_d c -> k_air c <= k <= k_eau c).
Proof.
  intros Hh. split; [reflexivity | split; [reflexivity |]].
  destruct (k_effectif_between c z Hh) as [k [Hk Hr]].
  exists k. split; [exact Hk | split; [exact Hr |]].
  intros Hrho Hcd. pose proof (k_air_le_k_eau c Hrho Hcd) as Hle.
  unfold Rmin, Rmax in Hr.
  destruct (Rle_dec (k_air c) (k_eau c)); lra.
Qed.

(** C9.  At [z = 0] neither function divides, whatever the reference
    height: progressive immersion gives volume 0 and [k_air], abrupt
    immersion gives [V_total] and [k_eau]. *)
Theorem surface_no_division (c : Config) :
  V_immerge c 0 = Val (if CHOC_BRUTAL c then V_total c else 0) /\
  k_effectif c 0 = Val (if CHOC_BRUTAL c then k_eau c else k_air c).
Proof.
  unfold V_immerge, k_effectif.
  destruct (CHOC_BRUTAL c).
  - destruct (Rge_dec 0 0); [split; reflexivity | lra].
  - destruct (Rle_dec 0 0); [split; reflexivity | lra].
Qed.

(** ** Submerged volume: bounds, monotonicity, continuity *)

Lemma clamp_lipschitz (x y : R) :
  x <= y -> clamp y 0 1 - clamp x 0 1 <= y - x.
Proof.
  intros Hxy. unfold clamp, Rmin, Rmax.
  destruct (Rle_dec x 0); destruct (Rle_dec y 0);
    repeat match goal with |- context [Rle_dec ?a ?b] => destruct (Rle_dec a b) end;
    lra.
Qed.

(** The progressive volume as a function of the blend fraction: its cube
    for the cone, the fraction itself for the cylinder. *)
Lemma V_immerge_clamp (c : Config) (z : R) :
  CHOC_BRUTAL c = false -> 0 < h_ref c ->
  V_immerge c z =
  Val (V_total c *
       (if is_cone c then clamp (z / h_ref c) 0 1 ^ 3
        else clamp (z / h_ref c) 0 1)).
Proof.
  intros Hb Hh. destruct (Rle_dec z 0) as [Hz | Hz].
  - rewrite V_immerge_air by assumption.
    rewrite clamp_nonpos by (apply quotient_nonpos; assumption).
    f_equal. destruct (is_cone c); ring.
  - assert (Hz' : 0 < z) by lra.
    pose proof (quotient_pos z (h_ref c) Hh Hz') as Hq.
    rewrite clamp_pos by lra.
    destruct (Rlt_dec z (h_ref c)) as [Hlt | Hge].
    + assert (Hq1 : z / h_ref c <= 1).
      { replace 1 with (h_ref c / h_ref c) by (field; lra).
        apply quotient_monotone; lra. }
      unfold Rmin. destruct (Rle_dec (z / h_ref c) 1); [| contradiction].
      destruct (is_cone c) eqn:Hs.
      * rewrite V_immerge_cone_ramp; unfold h_ref in *; rewrite Hs in *; auto.
      * rewrite V_immerge_cylinder_ramp;
          unfold h_ref, V_total in *; rewrite Hs in *; auto.
        f_equal. field. lra.
    + rewrite V_immerge_full by (auto; lra).
      assert (Hq1 : 1 <= z / h_ref c) by (apply quotient_ge_1; lra).
      unfold Rmin. destruct (Rle_dec (z / h_ref c) 1).
      * replace (z / h_ref c) with 1 by lra.
        f_equal. destruct (is_cone c); ring.
      * f_equal. destruct (is_cone c); ring.
Qed.

Lemma cube_increment (a b : R) :
  0 <= a -> a <= b -> b <= 1 ->
  0 <= b ^ 3 - a ^ 3 <= 3 * (b - a).
Proof.
  intros Ha Hab Hb.
  replace (b ^ 3 - a ^ 3) with ((b - a) * (b * b + a * b + a * a)) by ring.
  assert (0 <= b * b + a * b + a * a <= 3) by nra.
  nra.
Qed.

(** Between two depths the progressive volume grows, and by no more than
    the cross-section times the distance. *)
Lemma V_immerge_increment (c : Config) (x y : R) :
  CHOC_BRUTAL c = false -> 0 < h_ref c -> x <= y ->
  0 <= value (V_immerge c y) - value (V_immerge c x) <= A c * (y - x).
Proof.
  intros Hb Hh Hxy.
  rewrite !V_immerge_clamp by assumption. unfold value.
  rewrite V_total_href.
  pose proof (quotient_monotone x y (h_ref c) Hh Hxy) as Hq.
  pose proof (clamp_monotone _ _ Hq) as Hm.
  pose proof (clamp_lipschitz _ _ Hq) as Hl.
  pose proof (clamp_range (x / h_ref c)) as Hrx.
  pose proof (clamp_range (y / h_ref c)) as Hry.
  assert (Hd : h_ref c * (y / h_ref c - x / h_ref c) = y - x) by (field; lra).
  set (a := clamp (x / h_ref c) 0 1) in *.
  set (b := clamp (y / h_ref c) 0 1) in *.
  set (d := y / h_ref c - x / h_ref c) in *.
  pose proof (A_nonneg c) as HA.
  assert (HAh : 0 <= A c * h_ref c) by nra.
  rewrite <- Hd.
  destruct (is_cone c).
  - pose proof (cube_increment a b (proj1 Hrx) Hm (proj2 Hry)) as Hc.
    replace (1 / 3 * A c * h_ref c * b ^ 3 - 1 / 3 * A c * h_ref c * a ^ 3)
      with (A c * h_ref c * ((b ^ 3 - a ^ 3) / 3)) by field.
    replace (A c * (h_ref c * d)) with (A c * h_ref c * d) by ring.
    split.
    + apply Rmult_le_pos; lra.
    + apply Rmult_le_compat_l; lra.
  - replace (1 * A c * h_ref c * b - 1 * A c * h_ref c * a)
      with (A c * h_ref c * (b - a)) by ring.
    replace (A c * (h_ref c * d)) with (A c * h_ref c * d) by ring.
    split.
    + apply Rmult_le_pos; lra.
    + apply Rmult_le_compat_l; lra.
Qed.

Lemma lipschitz_continuity_pt (f : R -> R) (K : R) :
  0 <= K ->
  (forall x y : R, x <= y -> Rabs (f y - f x) <= K * (y - x)) ->
  forall x0 : R, continuity_pt f x0.
Proof.
  intros HK Hlip x0 eps Heps.
  exists (eps / (K + 1)).
  assert (HK1 : 0 < K + 1) by lra.
  assert (Hdel : 0 < eps / (K + 1)) by (apply Rdiv_lt_0_compat; lra).
  split; [exact Hdel |].
  intros x [_ Hx]. simpl in *. unfold Rdist in *.
  assert (Hb : Rabs (f x - f x0) <= K * Rabs (x - x0)).
  { destruct (Rle_dec x0 x) as [Hle | Hgt].
    - rewrite (Rabs_right (x - x0)) by lra. apply Hlip. exact Hle.
    - rewrite (Rabs_left (x - x0)) by lra.
      rewrite <- Rabs_Ropp.
      replace (- (f x - f x0)) with (f x0 - f x) by ring.
      replace (- (x - x0)) with (x0 - x) by ring.
      apply Hlip. lra. }
  assert (Hm : (K + 1) * (eps / (K + 1)) = eps) by (field; lra).
  pose proof (Rabs_pos (x - x0)).
  nra.
Qed.

Lemma V_immerge_range (c : Config) (z : R) :
  0 <= h_ref c ->
  exists V, V_immerge c z = Val V /\ 0 <= V <= V_total c.
Proof.
  intros Hh. pose proof (V_total_nonneg c Hh) as HV.
  destruct (CHOC_BRUTAL c) eqn:Hb.
  - rewrite V_immerge_brutal by exact Hb.
    eexists; split; [reflexivity |]. destruct (Rge_dec z 0); lra.
  - destruct (Rle_dec z 0) as [Hz | Hz].
    + rewrite V_immerge_air by assumption.
      eexists; split; [reflexivity | lra].
    + destruct Hh as [Hh | Hh].
      * rewrite V_immerge_clamp by assumption.
        eexists; split; [reflexivity |].
        pose proof (clamp_range (z / h_ref c)) as [H0 H1].
        set (a := clamp (z / h_ref c) 0 1) in *.
        destruct (is_cone c).
        -- assert (0 <= a ^ 3 <= 1).
           { replace (a ^ 3) with (a * (a * a)) by ring.
             assert (0 <= a * a <= 1) by nra. nra. }
           nra.
        -- nra.
      * rewrite V_immerge_full by (auto; lra).
        eexists; split; [reflexivity | lra].
Qed.

(** C6.  The submerged volume lies in [[0, V_total]] for every depth (the
    reference height not being negative).  Progressive immersion with a
    positive reference height: it does not decrease with the depth from
    the surface on, is continuous there, is exactly [V_total] at the
    reference height and stays so beyond.  Abrupt immersion: it is the
    step function, 0 for [z < 0] and [V_total] for [z >= 0], with no other
    value. *)
Theorem V_immerge_range_monotone_continuous (c : Config) :
  (0 <= h_ref c ->
   forall z : R, exists V, V_immerge c z = Val V /\ 0 <= V <= V_total c) /\
  (CHOC_BRUTAL c = false -> 0 < h_ref c ->
   (forall z1 z2 V1 V2 : R, 0 <= z1 -> z1 <= z2 ->
      V_immerge c z1 = Val V1 -> V_immerge c z2 = Val V2 -> V1 <= V2) /\
   (forall z : R, 0 <= z ->
      continuity_pt (fun x => value (V_immerge c x)) z) /\
   V_immerge c (h_ref c) = Val (V_total c) /\
   (forall z : R, h_ref c <= z -> V_immerge c z = Val (V_total c))) /\
  (CHOC_BRUTAL c = true ->
   forall z : R,
     (z < 0 -> V_immerge c z = Val 0) /\
     (0 <= z -> V_immerge c z = Val (V_total c)) /\
     (V_immerge c z = Val 0 \/ V_immerge c z = Val (V_total c))).
Proof.
  split; [| split].
  - intros Hh z. apply V_immerge_range. exact Hh.
  - intros Hb Hh. split; [| split; [| split]].
    + intros z1 z2 V1 V2 _ Hle H1 H2.
      pose proof (V_immerge_increment c z1 z2 Hb Hh Hle) as [Hinc _].
      rewrite H1, H2 in Hinc. simpl in Hinc. lra.
    + intros z _.
      apply (lipschitz_continuity_pt _ (A c) (A_nonneg c)).
      intros x y Hxy.
      pose proof (V_immerge_increment c x y Hb Hh Hxy) as [Hlo Hhi].
      rewrite Rabs_right by lra. exact Hhi.
    + apply V_immerge_full; [exact Hb | exact Hh | lra].
    + intros z Hz. apply V_immerge_full; [exact Hb | lra | exact Hz].
  - intros Hb z. rewrite V_immerge_brutal by exact Hb.
    destruct (Rge_dec z 0); repeat split; intros; auto; lra.
Qed.

(** ** The force law *)

Lemma valid_config_height (c : Config) :
  valid_config c -> CHOC_BRUTAL c = false -> 0 < h_ref c.
Proof. intros Hv. apply Hv. Qed.

Lemma k_effectif_positive (c : Config) (z : R) :
  valid_config c -> exists k, k_effectif c z = Val k /\ 0 < k.
Proof.
  intros Hv. destruct (k_effectif_between c z (valid_config_height c Hv))
    as [k [Hk Hr]].
  destruct Hv as (Hm & Hr0 & Hcd & Hg & Hre & Hra & _).
  assert (Hr1 : r c <> 0) by lra.
  pose proof (k_air_pos c Hra Hcd Hr1) as Ha.
  pose proof (k_eau_pos c Hre Hcd Hr1) as He.
  exists k. split; [exact Hk |].
  unfold Rmin in Hr. destruct (Rle_dec (k_air c) (k_eau c)); lra.
Qed.

Lemma drag_sign (k v : R) :
  0 < k ->
  (0 < v -> 0 < k * v * Rabs v) /\
  (v < 0 -> k * v * Rabs v < 0) /\
  (v = 0 -> k * v * Rabs v = 0).
Proof.
  intros Hk. split; [| split]; intros Hv.
  - rewrite Rabs_right by lra.
    assert (0 < k * v) by nra. nra.
  - rewrite Rabs_left by lra.
    assert (k * v < 0) by nra. nra.
  - subst v. ring.
Qed.

Lemma system_eval (c : Config) (t z v V k : R) :
  V_immerge c z = Val V -> k_effectif c z = Val k -> m c <> 0 ->
  system c t (z, v) =
  Val (v, (m c * g c - rho_eau c * g c * V - k * v * Rabs v) / m c).
Proof.
  intros HV Hk Hm. unfold system. rewrite HV, Hk. simpl.
  rewrite div_nonzero by exact Hm. reflexivity.
Qed.

(** C3.  At every state [(z, v)] and time [t] the force law returns [v]
    and [(m g - rho_eau g V_immerge(z) - k(z) v |v|) / m]; the drag term
    [k(z) v |v|] has the sign of [v]; the time is not used. *)
Theorem system_force_law (c : Config) (t z v : R) :
  valid_config c ->
  exists V k : R,
    V_immerge c z = Val V /\ k_effectif c z = Val k /\
    system c t (z, v) =
      Val (v, (m c * g c - rho_eau c * g c * V - k * v * Rabs v) / m c) /\
    (0 < v -> 0 < k * v * Rabs v) /\
    (v < 0 -> k * v * Rabs v < 0) /\
    (v = 0 -> k * v * Rabs v = 0) /\
    (forall t' : R, system c t' (z, v) = system c t (z, v)).
Proof.
  intros Hv.
  destruct (V_immerge_total c z) as [V HV].
  destruct (k_effectif_positive c z Hv) as [k [Hk Hpos]].
  exists V, k.
  destruct (drag_sign k v Hpos) as (H1 & H2 & H3).
  repeat (split; [assumption |]).
  split.
  - apply system_eval; auto. destruct Hv as [Hm _]. lra.
  - split; [exact H1 | split; [exact H2 | split; [exact H3 |]]].
    intros t'. reflexivity.
Qed.

(** ** Zero reference height under progressive immersion *)

Lemma V_total_zero_height (c : Config) : h_ref c = 0 -> V_total c = 0.
Proof. intros Hh. rewrite V_total_href, Hh. ring. Qed.

Lemma system_zero_height (c : Config) (t z v : R) :
  CHOC_BRUTAL c = false -> h_ref c = 0 -> 0 < z ->
  system c t (z, v) = Raise ZeroDivisionError.
Proof.
  intros Hb Hh Hz. unfold system.
  destruct (V_immerge_total c z) as [V HV]. rewrite HV. simpl.
  rewrite k_effectif_zero_height by assumption. reflexivity.
Qed.

(** C2, as the code behaves.  Nothing is checked before the integration:
    with progressive immersion and a zero reference height the derived
    constants are computed ([V_total = 0]); the submerged volume is 0 at
    every depth, with no division; the drag coefficient is [k_air] for
    [z <= 0]; every evaluation of the drag coefficient, and so of the
    force law, at a depth [z > 0] divides by the zero reference height. *)
Theorem zero_height_accepted_then_divides (c : Config) :
  CHOC_BRUTAL c = false -> h_ref c = 0 ->
  (exists d, configure c = Val d /\ d_V_total d = 0) /\
  (forall z : R, V_immerge c z = Val 0) /\
  (forall z : R, z <= 0 -> k_effectif c z = Val (k_air c)) /\
  (forall z : R, 0 < z -> k_effectif c z = Raise ZeroDivisionError) /\
  (forall t z v : R, 0 < z -> system c t (z, v) = Raise ZeroDivisionError).
Proof.
  intros Hb Hh. split; [| split; [| split; [| split]]].
  - eexists; split; [reflexivity |]. simpl. apply V_total_zero_height, Hh.
  - intros z. destruct (Rle_dec z 0) as [Hz | Hz].
    + apply V_immerge_air; assumption.
    + rewrite V_immerge_full by (auto; lra).
      rewrite V_total_zero_height by exact Hh. reflexivity.
  - intros z Hz. apply k_effectif_air; assumption.
  - intros z Hz. apply k_effectif_zero_height; assumption.
  - intros t z v Hz. apply system_zero_height; assumption.
Qed.

Lemma ech2_cone_zero_height : CHOC_BRUTAL ech2_cone = false /\ h_ref ech2_cone = 0.
Proof. split; reflexivity. Qed.

(** C2 fails on the code: the block "Ech 2" run as a cone with progressive
    immersion has reference height 0; its constants are computed without
    complaint, and the force law at depth 0.1 divides by that height. *)
Lemma zero_height_not_rejected :
  CHOC_BRUTAL ech2_cone = false /\ h_ref ech2_cone = 0 /\
  (exists d, configure ech2_cone = Val d) /\
  system ech2_cone 0 (0.1, 1) = Raise ZeroDivisionError.
Proof.
  destruct ech2_cone_zero_height as [Hb Hh].
  split; [exact Hb | split; [exact Hh | split]].
  - eexists; reflexivity.
  - apply system_zero_height; [exact Hb | exact Hh | lra].
Qed.

Lemma zero_height_accepted_then_divides_witness :
  (exists d, configure ech2_cone = Val d /\ d_V_total d = 0) /\
  (forall z : R, V_immerge ech2_cone z = Val 0) /\
  (forall z : R, z <= 0 -> k_effectif ech2_cone z = Val (k_air ech2_cone)) /\
  (forall z : R, 0 < z -> k_effectif ech2_cone z = Raise ZeroDivisionError) /\
  (forall t z v : R, 0 < z ->
     system ech2_cone t (z, v) = Raise ZeroDivisionError).
Proof.
  apply (zero_height_accepted_then_divides ech2_cone); reflexivity.
Defined.

(** ** Sequencing of fallible evaluations *)

Lemma mapM_val_nth {T U : Type} (f : T -> result U) (l : list T) (ys : list U) :
  mapM f l = Val ys ->
  List.length ys = List.length l /\
  forall (i : nat) (x : T), nth_error l i = Some x ->
    exists y, nth_error ys i = Some y /\ f x = Val y.
Proof.
  revert ys. induction l as [| a l IH]; intros ys H; simpl in H.
  - inversion H; subst. split; [reflexivity |].
    intros [| i] x Hx; discriminate.
  - destruct (f a) as [b | e] eqn:Hfa; simpl in H; [| discriminate].
    destruct (mapM f l) as [bs | e] eqn:Hrec; simpl in H; [| discriminate].
    inversion H; subst. destruct (IH bs eq_refl) as [Hlen Hnth].
    split; [simpl; congruence |].
    intros [| i] x Hx; simpl in *.
    + inversion Hx; subst. exists b. split; [reflexivity | exact Hfa].
    + apply Hnth. exact Hx.
Qed.

Lemma mapM_total {T U : Type} (f : T -> result U) (l : list T) :
  (forall x, In x l -> exists y, f x = Val y) ->
  exists ys, mapM f l = Val ys.
Proof.
  induction l as [| a l IH]; intros H; simpl.
  - eexists; reflexivity.
  - destruct (H a (or_introl eq_refl)) as [b Hb]. rewrite Hb. simpl.
    destruct IH as [bs Hbs]; [intros x Hx; apply H; right; exact Hx |].
    rewrite Hbs. simpl. eexists; reflexivity.
Qed.

Lemma mapM_error {T U : Type} (f : T -> result U) (l : list T) (e0 e : error) :
  (forall x e', f x = Raise e' -> e' = e0) ->
  mapM f l = Raise e -> e = e0.
Proof.
  intros Hf. induction l as [| a l IH]; simpl; intros H; [discriminate |].
  destruct (f a) as [b | e1] eqn:Hfa; simpl in H.
  - destruct (mapM f l) as [bs | e2]; simpl in H; [discriminate |].
    inversion H; subst. apply IH. reflexivity.
  - inversion H; subst. eapply Hf. exact Hfa.
Qed.

Lemma div_error (x y : R) (e : error) : div x y = Raise e -> e = ZeroDivisionError.
Proof.
  unfold div. destruct (Req_dec_T y 0); intros H; [congruence | discriminate].
Qed.

Lemma k_effectif_error (c : Config) (z : R) (e : error) :
  k_effectif c z = Raise e -> e = ZeroDivisionError.
Proof.
  unfold k_effectif.
  destruct (CHOC_BRUTAL c); [discriminate |].
  destruct (Rle_dec z 0); [discriminate |].
  destruct (is_cone c).
  - destruct (div z (h_cone c)) eqn:Hd; simpl; [discriminate |].
    intros H. inversion H; subst. eapply div_error. exact Hd.
  - destruct (div z (h c)) eqn:Hd; simpl; [discriminate |].
    intros H. inversion H; subst. eapply div_error. exact Hd.
Qed.

(** ** The acceleration pass against the force law *)

Lemma system_accel_unfold (c : Config) (s : Sample) :
  system_accel c s =
  (V <- V_immerge c (s_z s) ;;
   k <- k_effectif c (s_z s) ;;
   div (m c * g c - rho_eau c * g c * V - k * s_v s * Rabs (s_v s)) (m c)).
Proof.
  unfold system_accel, system.
  destruct (V_immerge c (s_z s)); simpl; [| reflexivity].
  destruct (k_effectif c (s_z s)); simpl; [| reflexivity].
  destruct (div _ (m c)); reflexivity.
Qed.

Lemma accel_cons (c : Config) (s : Sample) (sol : Trajectory) :
  accel c (s :: sol) =
  (V <- V_immerge c (s_z s) ;;
   Vs <- mapM (V_immerge c) (sol_z sol) ;;
   k <- k_effectif c (s_z s) ;;
   ks <- mapM (k_effectif c) (sol_z sol) ;;
   a <- div (m c * g c - rho_eau c * g c * V - k * s_v s * Rabs (s_v s)) (m c) ;;
   rest <- mapM (fun x => div x (m c))
             (zipWith Rminus
                (map (fun V => m c * g c - rho_eau c * g c * V) Vs)
                (zipWith Rmult (zipWith Rmult ks (sol_v sol))
                   (map Rabs (sol_v sol)))) ;;
   Val (a :: rest)).
Proof.
  unfold accel, sol_z, sol_v. cbn [map mapM].
  destruct (V_immerge c (s_z s)); cbn [bind]; [| reflexivity].
  destruct (mapM (V_immerge c) (map s_z sol)); cbn [bind]; [| reflexivity].
  destruct (k_effectif c (s_z s)); cbn [bind]; [| reflexivity].
  destruct (mapM (k_effectif c) (map s_z sol)); cbn [bind]; reflexivity.
Qed.

Lemma accel_refines_system (c : Config) (sol : Trajectory) :
  accel c sol = accel_by_system c sol.
Proof.
  induction sol as [| s sol IH].
  - reflexivity.
  - rewrite accel_cons. unfold accel_by_system in *. cbn [mapM].
    rewrite system_accel_unfold, <- IH. unfold accel.
    destruct (V_immerge_total c (s_z s)) as [V HV]. rewrite HV.
    destruct (mapM_total (V_immerge c) (sol_z sol)) as [Vs HVs];
      [intros x _; apply V_immerge_total |].
    rewrite HVs. cbn [bind].
    destruct (k_effectif c (s_z s)) as [k | e] eqn:Hk; cbn [bind];
      [| reflexivity].
    destruct (mapM (k_effectif c) (sol_z sol)) as [ks | e] eqn:Hks; cbn [bind].
    + reflexivity.
    + assert (e = ZeroDivisionError).
      { eapply mapM_error; [| exact Hks]. apply k_effectif_error. }
      subst e.
      destruct (div_cases
                  (m c * g c - rho_eau c * g c * V - k * s_v s * Rabs (s_v s))
                  (m c)) as [[_ Hd] | [_ Hd]]; rewrite Hd; reflexivity.
Qed.

Lemma accel_total (c : Config) (sol : Trajectory) :
  valid_config c -> exists a, accel c sol = Val a.
Proof.
  intros Hv. rewrite accel_refines_system. unfold accel_by_system.
  apply mapM_total. intros s _. unfold system_accel.
  destruct (V_immerge_total c (s_z s)) as [V HV].
  destruct (k_effectif_positive c (s_z s) Hv) as [k [Hk _]].
  rewrite (system_eval c (s_t s) (s_z s) (s_v s) V k HV Hk).
  - eexists; reflexivity.
  - destruct Hv as [Hm _]. lra.
Qed.

Lemma accel_nth (c : Config) (sol : Trajectory) (a : list R) :
  accel c sol = Val a ->
  List.length a = List.length sol /\
  forall (i : nat) (s : Sample), nth_error sol i = Some s ->
    exists V k : R,
      V_immerge c (s_z s) = Val V /\ k_effectif c (s_z s) = Val k /\
      m c <> 0 /\
      nth_error a i =
        Some ((m c * g c - rho_eau c * g c * V - k * s_v s * Rabs (s_v s)) / m c).
Proof.
  rewrite accel_refines_system. unfold accel_by_system. intros H.
  destruct (mapM_val_nth _ _ _ H) as [Hlen Hnth].
  split; [exact Hlen |].
  intros i s Hs. destruct (Hnth i s Hs) as [ai [Hai Hsys]].
  rewrite system_accel_unfold in Hsys.
  destruct (V_immerge c (s_z s)) as [V | e]; [| discriminate].
  destruct (k_effectif c (s_z s)) as [k | e]; [| discriminate].
  cbn [bind] in Hsys.
  destruct (div_cases
              (m c * g c - rho_eau c * g c * V - k * s_v s * Rabs (s_v s))
              (m c)) as [[Hm Hd] | [_ Hd]]; rewrite Hd in Hsys;
    [| discriminate].
  inversion Hsys; subst ai.
  exists V, k. repeat split; auto.
Qed.

(** C8.  The accelerations recomputed array by array after the integration
    are those of the force law: the pass gives the same result as
    evaluating [system] at every sample and keeping its second component;
    it succeeds on every trajectory of a valid configuration, and its
    entry at each index [i] is the [dv/dt] that [system] returns at
    [(z[i], v[i])], at any time. *)
Theorem accel_matches_system (c : Config) (sol : Trajectory) :
  accel c sol = accel_by_system c sol /\
  (valid_config c -> exists a, accel c sol = Val a) /\
  (forall a : list R, accel c sol = Val a ->
     List.length a = List.length sol /\
     forall (i : nat) (s : Sample), nth_error sol i = Some s ->
       exists ai : R,
         nth_error a i = Some ai /\
         forall t : R, system c t (s_z s, s_v s) = Val (s_v s, ai)).
Proof.
  split; [apply accel_refines_system | split; [apply accel_total |]].
  intros a Ha. destruct (accel_nth c sol a Ha) as [Hlen Hnth].
  split; [exact Hlen |].
  intros i s Hs. destruct (Hnth i s Hs) as (V & k & HV & Hk & Hm & Hai).
  eexists. split; [exact Hai |].
  intros t. apply system_eval; assumption.
Qed.

(** ** NumPy searches *)

Lemma ge0_true (x : R) : ge0 x = true <-> 0 <= x.
Proof. unfold ge0. destruct (Rge_dec x 0); split; intros; try discriminate; auto; lra. Qed.

Lemma ge0_false (x : R) : ge0 x = false <-> x < 0.
Proof. unfold ge0. destruct (Rge_dec x 0); split; intros; try discriminate; auto; lra. Qed.

Lemma first_true_some (l : list bool) (i : nat) :
  first_true l = Some i ->
  nth_error l i = Some true /\
  forall j : nat, (j < i)%nat -> nth_error l j = Some false.
Proof.
  revert i. induction l as [| b l IH]; intros i H; simpl in H; [discriminate |].
  destruct b.
  - inversion H; subst. split; [reflexivity | intros j Hj; lia].
  - destruct (first_true l) as [k |] eqn:Hk; simpl in H; [| discriminate].
    inversion H; subst. destruct (IH k eq_refl) as [Hn Hbefore].
    split; [exact Hn |].
    intros [| j] Hj; [reflexivity |]. simpl. apply Hbefore. lia.
Qed.

Lemma first_true_none (l : list bool) :
  first_true l = None -> forall b : bool, In b l -> b = false.
Proof.
  induction l as [| a l IH]; intros H b Hb; simpl in *; [contradiction |].
  destruct a; [discriminate |].
  destruct (first_true l); simpl in H; [discriminate |].
  destruct Hb as [Hb | Hb]; [congruence | apply IH; auto].
Qed.

Lemma first_true_exists (l : list bool) :
  In true l -> exists i : nat, first_true l = Some i.
Proof.
  intros Hin. destruct (first_true l) as [i |] eqn:H; [eauto |].
  pose proof (first_true_none l H true Hin). discriminate.
Qed.

(** The search started with a current least value [best] at index [ibest]
    either keeps it, when nothing further is smaller, or returns the first
    position of the least remaining value. *)
Lemma argmin_from_spec (l : list R) :
  forall (best : R) (ibest i : nat),
    (argmin_from best ibest i l = ibest /\ forall y, In y l -> best <= y) \/
    (exists (k : nat) (x : R),
        argmin_from best ibest i l = (i + k)%nat /\
        nth_error l k = Some x /\ x < best /\
        (forall y, In y l -> x <= y) /\
        (forall (k' : nat) (y : R), (k' < k)%nat ->
           nth_error l k' = Some y -> x < y)).
Proof.
  induction l as [| a l IH]; intros best ibest i; simpl.
  - left. split; [reflexivity | intros y []].
  - destruct (Rlt_dec a best) as [Hlt | Hge].
    + right.
      destruct (IH a i (S i))
        as [[Hj Hall] | (k & x & Hj & Hn & Hx & Hall & Hfirst)].
      * exists 0%nat, a. rewrite Hj.
        split; [lia | split; [reflexivity | split; [exact Hlt | split]]].
        -- intros y [Hy | Hy]; [lra | apply Hall; exact Hy].
        -- intros k' y Hk'. lia.
      * exists (S k), x. rewrite Hj.
        split; [lia | split; [exact Hn | split; [lra | split]]].
        -- intros y [Hy | Hy]; [lra | apply Hall; exact Hy].
        -- intros [| k'] y Hk' Hy; simpl in Hy.
           ++ inversion Hy; subst. exact Hx.
           ++ apply (Hfirst k' y); [lia | exact Hy].
    + destruct (IH best ibest (S i))
        as [[Hj Hall] | (k & x & Hj & Hn & Hx & Hall & Hfirst)].
      * left. split; [exact Hj |].
        intros y [Hy | Hy]; [lra | apply Hall; exact Hy].
      * right. exists (S k), x. rewrite Hj.
        split; [lia | split; [exact Hn | split; [exact Hx | split]]].
        -- intros y [Hy | Hy]; [lra | apply Hall; exact Hy].
        -- intros [| k'] y Hk' Hy; simpl in Hy.
           ++ inversion Hy; subst. lra.
           ++ apply (Hfirst k' y); [lia | exact Hy].
Qed.

(** [np.argmin] returns the first index of a least element. *)
Lemma np_argmin_spec (l : list R) :
  l <> [] ->
  exists (j : nat) (x : R),
    np_argmin l = Val j /\ nth_error l j = Some x /\
    (forall y, In y l -> x <= y) /\
    (forall (k : nat) (y : R), (k < j)%nat -> nth_error l k = Some y -> x < y).
Proof.
  destruct l as [| a l]; [congruence | intros _].
  unfold np_argmin.
  destruct (argmin_from_spec l a 0%nat 1%nat)
    as [[Hj Hall] | (k & x & Hj & Hn & Hx & Hall & Hfirst)].
  - exists 0%nat, a. rewrite Hj.
    split; [reflexivity | split; [reflexivity | split]].
    + intros y [Hy | Hy]; [lra | apply Hall; exact Hy].
    + intros k y Hk. lia.
  - exists (S k), x. rewrite Hj.
    split; [reflexivity | split; [exact Hn | split]].
    + intros y [Hy | Hy]; [lra | apply Hall; exact Hy].
    + intros [| k'] y Hk' Hy; simpl in Hy.
      * inversion Hy; subst. exact Hx.
      * apply (Hfirst k' y); [lia | exact Hy].
Qed.

Lemma index_nth (l : list R) (i : nat) (x : R) :
  nth_error l i = Some x -> index l i = Val x.
Proof. intros H. unfold index. rewrite H. reflexivity. Qed.

Lemma index_val (l : list R) (i : nat) (x : R) :
  index l i = Val x -> nth_error l i = Some x.
Proof.
  unfold index. destruct (nth_error l i); intros H; inversion H; reflexivity.
Qed.

(** ** Extraction of the impact metrics *)

Lemma nth_error_lt {T : Type} (l : list T) (i : nat) (x : T) :
  nth_error l i = Some x -> (i < List.length l)%nat.
Proof. intros H. apply nth_error_Some. rewrite H. discriminate. Qed.

Lemma nth_error_sample (sol : Trajectory) (i : nat) :
  (i < List.length sol)%nat -> exists s, nth_error sol i = Some s.
Proof.
  intros Hi. destruct (nth_error sol i) as [s |] eqn:H; [eauto |].
  apply nth_error_None in H. lia.
Qed.

Lemma sol_t_nth (sol : Trajectory) (i : nat) (s : Sample) :
  nth_error sol i = Some s -> index (sol_t sol) i = Val (s_t s).
Proof.
  intros H. apply index_nth. unfold sol_t. rewrite nth_error_map, H. reflexivity.
Qed.

Lemma sol_z_nth (sol : Trajectory) (i : nat) (s : Sample) :
  nth_error sol i = Some s -> index (sol_z sol) i = Val (s_z s).
Proof.
  intros H. apply index_nth. unfold sol_z. rewrite nth_error_map, H. reflexivity.
Qed.

Lemma terminal_quotient_pos (c : Config) :
  valid_config c ->
  rho_air c * A c * C_d c <> 0 /\
  0 < 2 * m c * g c / (rho_air c * A c * C_d c).
Proof.
  intros (Hm & Hr & Hcd & Hg & Hre & Hra & _).
  assert (HA : 0 < A c) by (apply A_pos; lra).
  assert (Hden : 0 < rho_air c * A c * C_d c).
  { apply Rmult_lt_0_compat; [apply Rmult_lt_0_compat |]; assumption. }
  split; [lra |].
  apply Rdiv_lt_0_compat; [| exact Hden].
  apply Rmult_lt_0_compat; [lra | exact Hg].
Qed.

(** On a trajectory that is not empty, with a valid configuration, the
    extraction succeeds; the contact index is the result of the search for
    the first [z >= 0], the peak index the result of [np.argmin] on the
    accelerations, and the other fields are read at these indices. *)
Lemma extract_run (c : Config) (sol : Trajectory) :
  valid_config c -> sol <> [] ->
  exists (a : list R) (i j : nat) (si sj : Sample) (M : ImpactMetrics),
    accel c sol = Val a /\
    np_argmax_bool (map ge0 (sol_z sol)) = Val i /\
    np_argmin a = Val j /\
    nth_error sol i = Some si /\ nth_error sol j = Some sj /\
    extract c sol = Val M /\
    idx_eau M = i /\ t_eau M = s_t si /\
    idx_a_max M = j /\ t_a_max M = s_t sj /\
    duree_impact M = s_t sj - s_t si /\
    prof_choc M = s_z sj.
Proof.
  intros Hv Hne.
  destruct (accel_total c sol Hv) as [a Ha].
  destruct (accel_nth c sol a Ha) as [Hlen _].
  destruct (terminal_quotient_pos c Hv) as [Hden Hq].
  assert (Hsq : 0 < sqrt (2 * m c * g c / (rho_air c * A c * C_d c)))
    by (apply sqrt_lt_R0; exact Hq).
  (* the contact index *)
  assert (Hi : exists i si,
             np_argmax_bool (map ge0 (sol_z sol)) = Val i /\
             nth_error sol i = Some si).
  { destruct sol as [| s0 sol']; [congruence |].
    unfold np_argmax_bool, sol_z. cbn [map].
    destruct (first_true (ge0 (s_z s0) :: map ge0 (map s_z sol')))
      as [i |] eqn:Hft.
    - apply first_true_some in Hft as [Hn _].
      assert (Hi : (i < List.length (s0 :: sol'))%nat).
      { apply nth_error_lt in Hn. cbn [List.length] in *.
        rewrite !length_map in Hn. exact Hn. }
      destruct (nth_error_sample _ _ Hi) as [si Hsi]. eauto.
    - exists 0%nat, s0. split; reflexivity. }
  destruct Hi as (i & si & Hargmax & Hsi).
  (* the peak index *)
  assert (Hane : a <> []).
  { destruct a; [| discriminate]. destruct sol; [congruence | discriminate]. }
  destruct (np_argmin_spec a Hane) as (j & x & Hargmin & Hx & _).
  assert (Hj : (j < List.length sol)%nat).
  { rewrite <- Hlen. eapply nth_error_lt. exact Hx. }
  destruct (nth_error_sample _ _ Hj) as [sj Hsj].
  assert (Hvmax : exists vm, np_max (sol_v sol) = Val vm).
  { destruct sol; [congruence |]. eexists; reflexivity. }
  assert (Hzmax : exists zm, np_max (sol_z sol) = Val zm).
  { destruct sol; [congruence |]. eexists; reflexivity. }
  assert (Hamin : exists am, np_min a = Val am).
  { destruct a; [congruence |]. eexists; reflexivity. }
  destruct Hvmax as [vm Hvm]. destruct Hzmax as [zm Hzm].
  destruct Hamin as [am Ham].
  exists a, i, j, si, sj.
  unfold extract.
  rewrite Ha; cbn [bind].
  rewrite Hvm; cbn [bind].
  rewrite (div_nonzero _ _ Hden); cbn [bind].
  unfold np_sqrt.
  destruct (Rlt_dec (2 * m c * g c / (rho_air c * A c * C_d c)) 0); [lra |].
  cbn [bind].
  rewrite Ham; cbn [bind].
  rewrite div_nonzero by lra; cbn [bind].
  rewrite Hargmax; cbn [bind].
  rewrite (sol_t_nth _ _ _ Hsi); cbn [bind].
  rewrite Hargmin; cbn [bind].
  rewrite (sol_t_nth _ _ _ Hsj); cbn [bind].
  rewrite Hzm; cbn [bind].
  rewrite (sol_z_nth _ _ _ Hsj); cbn [bind].
  eexists.
  split; [reflexivity | split; [reflexivity | split; [reflexivity |]]].
  split; [exact Hsi | split; [exact Hsj | split; [reflexivity |]]].
  cbn. repeat split; reflexivity.
Qed.

Lemma contact_index (sol : Trajectory) (i : nat) :
  (exists s, In s sol /\ 0 <= s_z s) ->
  np_argmax_bool (map ge0 (sol_z sol)) = Val i ->
  (exists si, nth_error sol i = Some si /\ 0 <= s_z si) /\
  (forall (k : nat) (s : Sample), (k < i)%nat ->
     nth_error sol k = Some s -> s_z s < 0).
Proof.
  intros (s & Hs & Hz) Harg.
  assert (Hin : In true (map ge0 (sol_z sol))).
  { apply in_map_iff. exists (s_z s). split; [apply ge0_true; exact Hz |].
    unfold sol_z. apply in_map. exact Hs. }
  destruct (first_true_exists _ Hin) as [i' Hft].
  assert (i' = i).
  { unfold np_argmax_bool in Harg. rewrite Hft in Harg.
    destruct (map ge0 (sol_z sol)); [discriminate | congruence]. }
  subst i'. destruct (first_true_some _ _ Hft) as [Hn Hbefore].
  unfold sol_z in Hn, Hbefore. split.
  - rewrite !nth_error_map in Hn.
    destruct (nth_error sol i) as [si |]; [| discriminate].
    exists si. split; [reflexivity |].
    simpl in Hn. inversion Hn as [Hg]. apply ge0_true. exact Hg.
  - intros k s' Hk Hs'. specialize (Hbefore k Hk).
    rewrite !nth_error_map, Hs' in Hbefore. simpl in Hbefore.
    inversion Hbefore as [Hg]. apply ge0_false. exact Hg.
Qed.

Lemma no_contact_index (sol : Trajectory) :
  sol <> [] -> (forall s, In s sol -> s_z s < 0) ->
  np_argmax_bool (map ge0 (sol_z sol)) = Val 0%nat.
Proof.
  intros Hne Hdry.
  assert (Hft : first_true (map ge0 (sol_z sol)) = None).
  { destruct (first_true (map ge0 (sol_z sol))) as [i |] eqn:H; [| reflexivity].
    apply first_true_some in H as [Hn _]. unfold sol_z in Hn.
    rewrite !nth_error_map in Hn.
    destruct (nth_error sol i) as [s |] eqn:Hs; [| discriminate].
    simpl in Hn. inversion Hn as [Hg]. apply ge0_true in Hg.
    apply nth_error_In in Hs. specialize (Hdry s Hs). lra. }
  unfold np_argmax_bool. rewrite Hft.
  destruct sol; [congruence | reflexivity].
Qed.

(** C7.  On a trajectory with a sample at [z >= 0] (valid configuration):
    the contact time is the time of the first such sample, the peak time
    is the time of a sample whose acceleration is least, the first one,
    the impact duration is their difference and the depth at the peak is
    the depth of that sample. *)
Theorem extract_contact_and_peak (c : Config) (sol : Trajectory) :
  valid_config c ->
  (exists s, In s sol /\ 0 <= s_z s) ->
  exists (a : list R) (i j : nat) (si sj : Sample) (aj : R)
         (M : ImpactMetrics),
    extract c sol = Val M /\ accel c sol = Val a /\
    nth_error sol i = Some si /\ 0 <= s_z si /\
    (forall (k : nat) (s : Sample), (k < i)%nat ->
       nth_error sol k = Some s -> s_z s < 0) /\
    idx_eau M = i /\ t_eau M = s_t si /\
    nth_error sol j = Some sj /\ nth_error a j = Some aj /\
    (forall y : R, In y a -> aj <= y) /\
    (forall (k : nat) (y : R), (k < j)%nat ->
       nth_error a k = Some y -> aj < y) /\
    idx_a_max M = j /\ t_a_max M = s_t sj /\
    duree_impact M = s_t sj - s_t si /\
    prof_choc M = s_z sj.
Proof.
  intros Hv Hwet.
  assert (Hne : sol <> []).
  { destruct Hwet as (s & Hs & _). destruct sol; [contradiction | discriminate]. }
  destruct (extract_run c sol Hv Hne)
    as (a & i & j & si & sj & M & Ha & Hi & Hj & Hsi & Hsj & HM & Hrest).
  destruct (contact_index sol i Hwet Hi) as [(si' & Hsi' & Hz) Hbefore].
  assert (si' = si) by congruence. subst si'.
  assert (Hane : a <> []).
  { destruct (accel_nth c sol a Ha) as [Hlen _].
    destruct a; [| discriminate]. destruct sol; [congruence | discriminate]. }
  destruct (np_argmin_spec a Hane) as (j' & aj & Hj' & Haj & Hmin & Hfirst).
  assert (j' = j) by congruence. subst j'.
  exists a, i, j, si, sj, aj, M.
  destruct Hrest as (H1 & H2 & H3 & H4 & H5 & H6).
  repeat (split; [assumption |]). assumption.
Qed.

(** Without any sample at [z >= 0] the search for the contact returns
    index 0, and the metrics are computed from it all the same. *)
Lemma extract_dry (c : Config) (sol : Trajectory) :
  valid_config c -> sol <> [] ->
  (forall s, In s sol -> s_z s < 0) ->
  exists (s0 : Sample) (M : ImpactMetrics),
    hd_error sol = Some s0 /\ extract c sol = Val M /\
    idx_eau M = 0%nat /\ t_eau M = s_t s0 /\
    duree_impact M = t_a_max M - s_t s0.
Proof.
  intros Hv Hne Hdry.
  destruct (extract_run c sol Hv Hne)
    as (a & i & j & si & sj & M & Ha & Hi & Hj & Hsi & Hsj & HM & Hrest).
  rewrite (no_contact_index sol Hne Hdry) in Hi. inversion Hi; subst i.
  destruct Hrest as (H1 & H2 & H3 & H4 & H5 & H6).
  exists si, M. split.
  - destruct sol; [congruence | exact Hsi].
  - repeat (split; [assumption |]). rewrite H4. exact H5.
Qed.

(** C1, as the code behaves.  When no sample has [z >= 0] (valid
    configuration, trajectory not empty) the extraction still returns
    numbers: the contact index is 0, the contact time is the time of the
    first sample, and the impact duration is the peak time minus it. *)
Theorem extract_no_contact_defaults (c : Config) (sol : Trajectory) :
  valid_config c -> sol <> [] ->
  (forall s, In s sol -> s_z s < 0) ->
  exists (s0 : Sample) (M : ImpactMetrics),
    hd_error sol = Some s0 /\ extract c sol = Val M /\
    idx_eau M = 0%nat /\ t_eau M = s_t s0 /\
    duree_impact M = t_a_max M - s_t s0.
Proof. apply extract_dry. Qed.

(** ** The presets *)

Lemma bfs_reel_valid : valid_config bfs_reel.
Proof.
  unfold valid_config, h_ref. cbn.
  repeat split; lra.
Qed.

Lemma ech1_brutal_valid : valid_config ech1_brutal.
Proof.
  unfold valid_config, h_ref. cbn.
  repeat split; lra.
Qed.

Lemma sol_dry_above : forall s, In s sol_dry -> s_z s < 0.
Proof. intros s [H | [H | []]]; subst s; cbn; lra. Qed.

Lemma sol_wet_contact : exists s, In s sol_wet /\ 0 <= s_z s.
Proof.
  exists {| s_t := 1; s_z := 1; s_v := 3 |}. split.
  - right. left. reflexivity.
  - cbn. lra.
Qed.

(** C1 fails on the code: for the active preset and a trajectory of two
    samples, both above the water, the extraction returns a metrics
    bundle with contact index 0, contact time 0, peak time 1 and an impact
    duration of 1. *)
Lemma no_contact_numeric_duration :
  (forall s, In s sol_dry -> s_z s < 0) /\
  exists M : ImpactMetrics,
    extract bfs_reel sol_dry = Val M /\
    idx_eau M = 0%nat /\ t_eau M = 0 /\ t_a_max M = 1 /\ duree_impact M = 1.
Proof.
  split; [exact sol_dry_above |].
  assert (Hne : sol_dry <> []) by discriminate.
  destruct (extract_run bfs_reel sol_dry bfs_reel_valid Hne)
    as (a & i & j & si & sj & M & Ha & Hi & Hj & Hsi & Hsj & HM
        & H1 & H2 & H3 & H4 & H5 & H6).
  rewrite (no_contact_index sol_dry Hne sol_dry_above) in Hi.
  injection Hi as <-. cbn in Hsi. injection Hsi as <-.
  destruct (accel_nth bfs_reel sol_dry a Ha) as [Hlen Hnth].
  destruct (Hnth 0%nat _ eq_refl) as (V0 & k0 & HV0 & Hk0 & _ & Ha0).
  destruct (Hnth 1%nat _ eq_refl) as (V1 & k1 & HV1 & Hk1 & _ & Ha1).
  cbn [s_z s_v] in *.
  rewrite V_immerge_air in HV0, HV1 by (try reflexivity; lra).
  rewrite k_effectif_air in Hk0, Hk1 by (try reflexivity; lra).
  injection HV0 as <-. injection HV1 as <-.
  injection Hk0 as <-. injection Hk1 as <-.
  assert (Hk : 0 < k_air bfs_reel).
  { apply k_air_pos; cbn; lra. }
  assert (Hane : a <> []) by (destruct a; discriminate).
  destruct (np_argmin_spec a Hane) as (j' & x & Hj' & Hx & Hmin & _).
  assert (j' = j) by congruence. subst j'.
  assert (Hj1 : j = 1%nat).
  { assert (Hlt : (j < 2)%nat).
    { apply nth_error_lt in Hx. rewrite Hlen in Hx. exact Hx. }
    destruct j as [| [| j]]; [| reflexivity | lia].
    exfalso. rewrite Ha0 in Hx. injection Hx as <-.
    apply nth_error_In in Ha1. apply Hmin in Ha1.
    cbn [m g rho_eau bfs_reel] in Ha1.
    rewrite (Rabs_right 2) in Ha1 by lra.
    rewrite Rabs_R0 in Ha1.
    unfold Rdiv in Ha1. apply Rmult_le_reg_r in Ha1; lra. }
  rewrite Hj1 in Hsj. cbn in Hsj. injection Hsj as <-.
  exists M. cbn [s_t] in *.
  repeat split; auto. rewrite H5. lra.
Qed.

(** ** The properties at the presets *)

Lemma bfs_reel_height : 0 < h_ref bfs_reel.
Proof. unfold h_ref. cbn. lra. Qed.

Lemma extract_no_contact_defaults_witness :
  exists (s0 : Sample) (M : ImpactMetrics),
    hd_error sol_dry = Some s0 /\ extract bfs_reel sol_dry = Val M /\
    idx_eau M = 0%nat /\ t_eau M = s_t s0 /\
    duree_impact M = t_a_max M - s_t s0.
Proof.
  apply (extract_no_contact_defaults bfs_reel sol_dry).
  - exact bfs_reel_valid.
  - discriminate.
  - exact sol_dry_above.
Defined.

Lemma system_force_law_witness :
  exists V k : R,
    V_immerge bfs_reel 0.1 = Val V /\ k_effectif bfs_reel 0.1 = Val k /\
    system bfs_reel 0 (0.1, 2) =
      Val (2, (m bfs_reel * g bfs_reel - rho_eau bfs_reel * g bfs_reel * V
               - k * 2 * Rabs 2) / m bfs_reel) /\
    (0 < 2 -> 0 < k * 2 * Rabs 2) /\
    (2 < 0 -> k * 2 * Rabs 2 < 0) /\
    (2 = 0 -> k * 2 * Rabs 2 = 0) /\
    (forall t' : R, system bfs_reel t' (0.1, 2) = system bfs_reel 0 (0.1, 2)).
Proof. apply (system_force_law bfs_reel 0 0.1 2). exact bfs_reel_valid. Defined.

Lemma V_immerge_progressive_cases_witness :
  V_immerge bfs_reel 0.13 = Val (V_total bfs_reel * (0.13 / 0.26) ^ 3) /\
  V_immerge bfs_reel 1 = Val (V_total bfs_reel) /\
  V_immerge bfs_reel (-5) = Val 0.
Proof.
  split; [| split].
  - destruct (V_immerge_progressive_cases bfs_reel 0.13 eq_refl bfs_reel_height)
      as (_ & Hcone & _).
    destruct (Hcone eq_refl) as (_ & Hramp & _).
    apply Hramp. cbn. lra.
  - destruct (V_immerge_progressive_cases bfs_reel 1 eq_refl bfs_reel_height)
      as (_ & Hcone & _).
    destruct (Hcone eq_refl) as (_ & _ & Hfull).
    apply Hfull. cbn. lra.
  - destruct (V_immerge_progressive_cases bfs_reel (-5) eq_refl bfs_reel_height)
      as (Hair & _).
    apply Hair. lra.
Defined.

Lemma k_effectif_progressive_blend_witness :
  k_effectif bfs_reel 0.13 =
    Val (blend bfs_reel (clamp (0.13 / h_ref bfs_reel) 0 1)) /\
  k_effectif bfs_reel (-5) = Val (k_air bfs_reel) /\
  k_effectif bfs_reel 1 = Val (k_eau bfs_reel).
Proof.
  split; [| split].
  - apply (k_effectif_progressive_blend bfs_reel 0.13 eq_refl bfs_reel_height).
  - apply (k_effectif_progressive_blend bfs_reel (-5) eq_refl bfs_reel_height).
    lra.
  - apply (k_effectif_progressive_blend bfs_reel 1 eq_refl bfs_reel_height).
    unfold h_ref. cbn. lra.
Defined.

Lemma V_immerge_range_monotone_continuous_witness :
  (forall z : R, exists V,
      V_immerge bfs_reel z = Val V /\ 0 <= V <= V_total bfs_reel) /\
  V_immerge bfs_reel (h_ref bfs_reel) = Val (V_total bfs_reel) /\
  continuity_pt (fun x => value (V_immerge bfs_reel x)) 0 /\
  V_immerge ech1_brutal 0 = Val (V_total ech1_brutal) /\
  V_immerge ech1_brutal (-1) = Val 0.
Proof.
  destruct (V_immerge_range_monotone_continuous bfs_reel) as (Hrange & Hprog & _).
  destruct (V_immerge_range_monotone_continuous ech1_brutal) as (_ & _ & Hstep).
  destruct (Hprog eq_refl bfs_reel_height) as (_ & Hcont & Hfull & _).
  split; [| split; [| split; [| split]]].
  - apply Hrange. left. exact bfs_reel_height.
  - exact Hfull.
  - apply Hcont. lra.
  - apply (Hstep eq_refl 0). lra.
  - apply (Hstep eq_refl (-1)). lra.
Defined.

Lemma extract_contact_and_peak_witness :
  exists (a : list R) (i j : nat) (si sj : Sample) (aj : R)
         (M : ImpactMetrics),
    extract bfs_reel sol_wet = Val M /\ accel bfs_reel sol_wet = Val a /\
    nth_error sol_wet i = Some si /\ 0 <= s_z si /\
    (forall (k : nat) (s : Sample), (k < i)%nat ->
       nth_error sol_wet k = Some s -> s_z s < 0) /\
    idx_eau M = i /\ t_eau M = s_t si /\
    nth_error sol_wet j = Some sj /\ nth_error a j = Some aj /\
    (forall y : R, In y a -> aj <= y) /\
    (forall (k : nat) (y : R), (k < j)%nat ->
       nth_error a k = Some y -> aj < y) /\
    idx_a_max M = j /\ t_a_max M = s_t sj /\
    duree_impact M = s_t sj - s_t si /\
    prof_choc M = s_z sj.
Proof.
  apply (extract_contact_and_peak bfs_reel sol_wet).
  - exact bfs_reel_valid.
  - exact sol_wet_contact.
Defined.

Lemma accel_matches_system_witness :
  accel bfs_reel sol_wet = accel_by_system bfs_reel sol_wet /\
  exists a : list R,
    accel bfs_reel sol_wet = Val a /\
    List.length a = List.length sol_wet /\
    exists a1 : R,
      nth_error a 1 = Some a1 /\
      forall t : R, system bfs_reel t (1, 3) = Val (3, a1).
Proof.
  destruct (accel_matches_system bfs_reel sol_wet) as (Heq & Htot & Hnth).
  split; [exact Heq |].
  destruct (Htot bfs_reel_valid) as [a Ha].
  exists a. split; [exact Ha |].
  destruct (Hnth a Ha) as [Hlen Hat].
  split; [exact Hlen |].
  apply (Hat 1%nat {| s_t := 1; s_z := 1; s_v := 3 |}). reflexivity.
Defined.

Lemma k_effectif_in_interval_witness :
  exists k : R,
    k_effectif bfs_reel 0.13 = Val k /\
    k_air bfs_reel <= k <= k_eau bfs_reel.
Proof.
  destruct (k_effectif_in_interval bfs_reel 0.13 (fun _ => bfs_reel_height))
    as (_ & _ & k & Hk & _ & Hord).
  exists k. split; [exact Hk |].
  apply Hord; cbn; lra.
Defined.


(** * Further properties of the simulation functions *)

(** ** Where the functions fail *)

(** X1.  [V_immerge] never fails, whatever the configuration: its only division
    is guarded by [0 < z < h_cone]; its value is then 0, a ramp value or
    [V_total]. *)
Theorem V_immerge_never_fails (c : Config) (z : R) :
  exists V : R, V_immerge c z = Val V /\
    (z < 0 -> V = 0) /\
    (h_ref c <= z -> 0 < z -> V = V_total c).
Proof.
  destruct (V_immerge_total c z) as [V HV]. exists V.
  split; [exact HV | split].
  - intros Hz. destruct (CHOC_BRUTAL c) eqn:Hb.
    + rewrite V_immerge_brutal in HV by exact Hb.
      destruct (Rge_dec z 0); [lra | congruence].
    + rewrite V_immerge_air in HV by (auto; lra). congruence.
  - intros Hh Hz. destruct (CHOC_BRUTAL c) eqn:Hb.
    + rewrite V_immerge_brutal in HV by exact Hb.
      destruct (Rge_dec z 0); [congruence | lra].
    + rewrite V_immerge_full in HV by assumption. congruence.
Qed.




(** ** Shape tags other than "cone" *)

Lemma with_shape_not_cone (c : Config) (tag : string) :
  tag <> "cone"%string -> is_cone (with_shape c tag) = false.
Proof. intros H. apply is_cone_false. exact H. Qed.

(** X4.  A shape tag that is not "cone" is not refused: the configuration
    behaves as the cylinder with the same parameters, in the total volume,
    the submerged volume, the drag coefficient and the force law. *)
Theorem unknown_shape_is_cylinder (c : Config) :
  SHAPE c <> "cone"%string ->
  V_total c = V_total (with_shape c "cylinder") /\
  (forall z : R, V_immerge c z = V_immerge (with_shape c "cylinder") z) /\
  (forall z : R, k_effectif c z = k_effectif (with_shape c "cylinder") z) /\
  (forall t z v : R,
     system c t (z, v) = system (with_shape c "cylinder") t (z, v)).
Proof.
  intros Hs. apply is_cone_false in Hs.
  assert (Hc : is_cone (with_shape c "cylinder") = false)
    by (apply with_shape_not_cone; discriminate).
  assert (HVt : V_total c = V_total (with_shape c "cylinder")).
  { unfold V_total. rewrite Hs, Hc. reflexivity. }
  assert (HV : forall z, V_immerge c z = V_immerge (with_shape c "cylinder") z).
  { intros z. unfold V_immerge. rewrite <- HVt, Hs, Hc. reflexivity. }
  assert (Hk : forall z, k_effectif c z = k_effectif (with_shape c "cylinder") z).
  { intros z. unfold k_effectif. rewrite Hs, Hc. reflexivity. }
  split; [exact HVt | split; [exact HV | split; [exact Hk |]]].
  intros t z v. unfold system. rewrite <- HV, <- Hk. reflexivity.
Qed.

Lemma unknown_shape_is_cylinder_witness :
  V_total ech1_sphere = V_total (with_shape ech1_sphere "cylinder") /\
  (forall z : R,
     V_immerge ech1_sphere z = V_immerge (with_shape ech1_sphere "cylinder") z) /\
  (forall z : R,
     k_effectif ech1_sphere z = k_effectif (with_shape ech1_sphere "cylinder") z) /\
  (forall t z v : R,
     system ech1_sphere t (z, v) =
     system (with_shape ech1_sphere "cylinder") t (z, v)).
Proof. apply (unknown_shape_is_cylinder ech1_sphere). discriminate. Defined.



(** ** Continuity at the surface *)

Lemma step_not_continuous (f : R -> R) (a b : R) :
  (forall x : R, x < 0 -> f x = a) -> f 0 = b -> a <> b ->
  ~ continuity_pt f 0.
Proof.
  intros Hneg H0 Hab Hcont.
  assert (Heps : 0 < Rabs (a - b)).
  { apply Rabs_pos_lt. lra. }
  destruct (Hcont (Rabs (a - b)) Heps) as (alp & Halp & Hlim).
  specialize (Hlim (- (alp / 2))).
  simpl in Hlim. unfold Rdist in Hlim.
  rewrite Hneg, H0 in Hlim by lra.
  assert (Hd : Rabs (- (alp / 2) - 0) < alp).
  { rewrite Rabs_left by lra. lra. }
  assert (Hx : D_x no_cond 0 (- (alp / 2))).
  { split; [exact I | lra]. }
  specialize (Hlim (conj Hx Hd)). lra.
Qed.

(** X5.  Abrupt immersion: the submerged volume jumps at the surface whenever
    [V_total] is not 0, and the drag coefficient jumps whenever the two
    coefficients differ; neither is continuous at [z = 0]. *)
Theorem abrupt_jump_at_surface (c : Config) :
  CHOC_BRUTAL c = true ->
  (V_total c <> 0 -> ~ continuity_pt (fun x => value (V_immerge c x)) 0) /\
  (k_air c <> k_eau c -> ~ continuity_pt (fun x => value (k_effectif c x)) 0).
Proof.
  intros Hb. split; intros Hne.
  - apply (step_not_continuous _ 0 (V_total c)); [| | congruence].
    + intros x Hx. rewrite V_immerge_brutal by exact Hb.
      destruct (Rge_dec x 0); [lra | reflexivity].
    + rewrite V_immerge_brutal by exact Hb.
      destruct (Rge_dec 0 0); [reflexivity | lra].
  - apply (step_not_continuous _ (k_air c) (k_eau c)); [| | exact Hne].
    + intros x Hx. rewrite k_effectif_brutal by exact Hb.
      destruct (Rge_dec x 0); [lra | reflexivity].
    + rewrite k_effectif_brutal by exact Hb.
      destruct (Rge_dec 0 0); [reflexivity | lra].
Qed.

Lemma ech1_brutal_constants :
  V_total ech1_brutal <> 0 /\ k_air ech1_brutal <> k_eau ech1_brutal.
Proof.
  pose proof PI_RGT_0 as Hpi.
  unfold k_air, k_eau, A, V_total. cbn. split; nra.
Qed.

Lemma abrupt_jump_at_surface_witness :
  ~ continuity_pt (fun x => value (V_immerge ech1_brutal x)) 0 /\
  ~ continuity_pt (fun x => value (k_effectif ech1_brutal x)) 0.
Proof.
  destruct (abrupt_jump_at_surface ech1_brutal eq_refl) as [HV Hk].
  split; [apply HV | apply Hk]; apply ech1_brutal_constants.
Defined.

(** Between two depths the progressive drag coefficient moves from the
    air-side towards the water-side value, by no more than their distance
    times the fraction of the reference height covered. *)
Lemma k_effectif_increment (c : Config) (x y : R) :
  CHOC_BRUTAL c = false -> 0 < h_ref c -> x <= y ->
  exists d : R,
    0 <= d <= (y - x) / h_ref c /\
    value (k_effectif c y) - value (k_effectif c x) = d * (k_eau c - k_air c).
Proof.
  intros Hb Hh Hxy.
  rewrite !k_effectif_clamp by assumption. unfold value, blend.
  pose proof (quotient_monotone x y (h_ref c) Hh Hxy) as Hq.
  pose proof (clamp_monotone _ _ Hq) as Hm.
  pose proof (clamp_lipschitz _ _ Hq) as Hl.
  exists (clamp (y / h_ref c) 0 1 - clamp (x / h_ref c) 0 1).
  split; [| ring].
  split; [lra |].
  replace ((y - x) / h_ref c) with (y / h_ref c - x / h_ref c) by (field; lra).
  exact Hl.
Qed.

(** X6.  Progressive immersion with a positive reference height: the drag
    coefficient is a continuous function of the depth, and goes from
    [k_air] to [k_eau] monotonically. *)
Theorem k_effectif_continuous_monotone (c : Config) :
  CHOC_BRUTAL c = false -> 0 < h_ref c ->
  (forall z : R, continuity_pt (fun x => value (k_effectif c x)) z) /\
  (forall z1 z2 : R, z1 <= z2 ->
     (k_air c <= k_eau c ->
        value (k_effectif c z1) <= value (k_effectif c z2)) /\
     (k_eau c <= k_air c ->
        value (k_effectif c z2) <= value (k_effectif c z1))).
Proof.
  intros Hb Hh. split.
  - apply (lipschitz_continuity_pt _ (Rabs (k_eau c - k_air c) / h_ref c)).
    + apply Rmult_le_pos; [apply Rabs_pos |].
      left. apply Rinv_0_lt_compat. exact Hh.
    + intros x y Hxy.
      destruct (k_effectif_increment c x y Hb Hh Hxy) as (d & [Hd0 Hd1] & Hd).
      rewrite Hd, Rabs_mult, (Rabs_right d) by lra.
      replace (Rabs (k_eau c - k_air c) / h_ref c * (y - x))
        with ((y - x) / h_ref c * Rabs (k_eau c - k_air c)) by (field; lra).
      apply Rmult_le_compat_r; [apply Rabs_pos | exact Hd1].
  - intros z1 z2 Hz.
    destruct (k_effectif_increment c z1 z2 Hb Hh Hz) as (d & [Hd0 Hd1] & Hd).
    split; intros Hk; nra.
Qed.

Lemma k_effectif_continuous_monotone_witness :
  continuity_pt (fun x => value (k_effectif bfs_reel x)) 0 /\
  value (k_effectif bfs_reel 0.1) <= value (k_effectif bfs_reel 0.2).
Proof.
  destruct (k_effectif_continuous_monotone bfs_reel eq_refl bfs_reel_height)
    as [Hc Hm].
  split; [apply Hc |].
  apply (Hm 0.1 0.2); [lra |].
  apply k_air_le_k_eau; cbn; lra.
Defined.

(** ** The acceleration as a function of the depth *)

Lemma dvdt_eval (c : Config) (z v V k : R) :
  V_immerge c z = Val V -> k_effectif c z = Val k -> m c <> 0 ->
  dvdt c z v = (m c * g c - rho_eau c * g c * V - k * v * Rabs v) / m c.
Proof.
  intros HV Hk Hm. unfold dvdt.
  rewrite (system_eval c 0 z v V k HV Hk Hm). reflexivity.
Qed.

Lemma dvdt_progressive (c : Config) (z v : R) :
  CHOC_BRUTAL c = false -> 0 < h_ref c -> m c <> 0 ->
  dvdt c z v =
  (m c * g c - rho_eau c * g c * value (V_immerge c z)
   - value (k_effectif c z) * v * Rabs v) / m c.
Proof.
  intros Hb Hh Hm.
  destruct (V_immerge_total c z) as [V HV].
  assert (Hk : k_effectif c z = Val (blend c (clamp (z / h_ref c) 0 1)))
    by (apply k_effectif_clamp; assumption).
  rewrite (dvdt_eval c z v _ _ HV Hk Hm), HV, Hk. reflexivity.
Qed.

Lemma dvdt_increment (c : Config) (v x y : R) :
  CHOC_BRUTAL c = false -> 0 < h_ref c -> m c <> 0 -> x <= y ->
  Rabs (dvdt c y v - dvdt c x v) <=
  (Rabs (rho_eau c * g c) * A c
   + Rabs (k_eau c - k_air c) / h_ref c * Rabs (v * Rabs v)) / Rabs (m c)
  * (y - x).
Proof.
  intros Hb Hh Hm Hxy.
  rewrite !dvdt_progressive by assumption.
  destruct (V_immerge_increment c x y Hb Hh Hxy) as [HV0 HV1].
  destruct (k_effectif_increment c x y Hb Hh Hxy) as (d & [Hd0 Hd1] & Hd).
  set (Vx := value (V_immerge c x)) in *.
  set (Vy := value (V_immerge c y)) in *.
  set (kx := value (k_effectif c x)) in *.
  set (ky := value (k_effectif c y)) in *.
  set (w := v * Rabs v).
  set (rg := rho_eau c * g c).
  replace ((m c * g c - rg * Vy - ky * v * Rabs v) / m c
           - (m c * g c - rg * Vx - kx * v * Rabs v) / m c)
    with ((- (rg * (Vy - Vx)) - (ky - kx) * w) / m c)
    by (unfold w, rg; field; exact Hm).
  rewrite Hd.
  assert (Hmpos : 0 < Rabs (m c)) by (apply Rabs_pos_lt; exact Hm).
  unfold Rdiv at 1. rewrite Rabs_mult, Rabs_inv.
  assert (Hnum : Rabs (- (rg * (Vy - Vx)) - d * (k_eau c - k_air c) * w) <=
                 (Rabs rg * A c
                  + Rabs (k_eau c - k_air c) / h_ref c * Rabs w) * (y - x)).
  { eapply Rle_trans; [apply Rabs_triang |].
    rewrite !Rabs_Ropp, !Rabs_mult.
    rewrite (Rabs_right (Vy - Vx)) by lra.
    rewrite (Rabs_right d) by lra.
    pose proof (Rabs_pos rg) as Hrg.
    pose proof (Rabs_pos (k_eau c - k_air c)) as Hke.
    pose proof (Rabs_pos w) as Hw.
    assert (H1 : Rabs rg * (Vy - Vx) <= Rabs rg * A c * (y - x)) by nra.
    assert (H2 : d * Rabs (k_eau c - k_air c) * Rabs w <=
                 (y - x) / h_ref c * Rabs (k_eau c - k_air c) * Rabs w).
    { apply Rmult_le_compat_r; [exact Hw |].
      apply Rmult_le_compat_r; [exact Hke | exact Hd1]. }
    replace ((Rabs rg * A c
              + Rabs (k_eau c - k_air c) / h_ref c * Rabs w) * (y - x))
      with (Rabs rg * A c * (y - x)
            + (y - x) / h_ref c * Rabs (k_eau c - k_air c) * Rabs w)
      by (field; lra).
    lra. }
  replace ((Rabs rg * A c
            + Rabs (k_eau c - k_air c) / h_ref c * Rabs w) / Rabs (m c)
           * (y - x))
    with ((Rabs rg * A c
           + Rabs (k_eau c - k_air c) / h_ref c * Rabs w) * (y - x)
          * / Rabs (m c))
    by (field; split; lra).
  apply Rmult_le_compat_r; [| exact Hnum].
  left. apply Rinv_0_lt_compat. exact Hmpos.
Qed.

(** X7.  Progressive immersion with a positive reference height and a mass
    that is not 0: at every velocity the acceleration returned by
    [system] is a continuous function of the depth, at the surface
    included. *)
Theorem progressive_acceleration_continuous (c : Config) (v z : R) :
  CHOC_BRUTAL c = false -> 0 < h_ref c -> m c <> 0 ->
  (forall x : R, exists a : R, system c 0 (x, v) = Val (v, a) /\ dvdt c x v = a) /\
  continuity_pt (fun x => dvdt c x v) z.
Proof.
  intros Hb Hh Hm. split.
  - intros x. destruct (V_immerge_total c x) as [V HV].
    pose proof (k_effectif_clamp c x Hb Hh) as Hk.
    eexists. split.
    + apply (system_eval c 0 x v _ _ HV Hk Hm).
    + apply (dvdt_eval c x v _ _ HV Hk Hm).
  - apply (lipschitz_continuity_pt _
             ((Rabs (rho_eau c * g c) * A c
               + Rabs (k_eau c - k_air c) / h_ref c * Rabs (v * Rabs v))
              / Rabs (m c))).
    + assert (Hmpos : 0 < Rabs (m c)) by (apply Rabs_pos_lt; exact Hm).
      pose proof (A_nonneg c) as HA.
      pose proof (Rabs_pos (rho_eau c * g c)) as H1.
      pose proof (Rabs_pos (k_eau c - k_air c)) as H2.
      pose proof (Rabs_pos (v * Rabs v)) as H3.
      assert (H4 : 0 < / h_ref c) by (apply Rinv_0_lt_compat; exact Hh).
      assert (H5 : 0 < / Rabs (m c)) by (apply Rinv_0_lt_compat; exact Hmpos).
      unfold Rdiv. apply Rmult_le_pos; [| lra].
      apply Rplus_le_le_0_compat.
      * apply Rmult_le_pos; assumption.
      * apply Rmult_le_pos; [apply Rmult_le_pos; lra | assumption].
    + intros x y Hxy. apply dvdt_increment; assumption.
Qed.

Lemma progressive_acceleration_continuous_witness :
  continuity_pt (fun x => dvdt bfs_reel x 10) 0.
Proof.
  apply (progressive_acceleration_continuous bfs_reel 10 0 eq_refl
           bfs_reel_height).
  cbn. lra.
Defined.

(** X8.  Abrupt immersion: at rest the acceleration is [g] just above the
    surface and [g - rho_eau g V_total / m] at it; it is not continuous
    at [z = 0] unless the buoyancy [rho_eau g V_total] is 0. *)
Theorem abrupt_acceleration_jump (c : Config) :
  CHOC_BRUTAL c = true -> m c <> 0 ->
  (forall x : R, x < 0 -> dvdt c x 0 = g c) /\
  dvdt c 0 0 = g c - rho_eau c * g c * V_total c / m c /\
  (rho_eau c * g c * V_total c <> 0 ->
   ~ continuity_pt (fun x => dvdt c x 0) 0).
Proof.
  intros Hb Hm.
  assert (Hneg : forall x : R, x < 0 -> dvdt c x 0 = g c).
  { intros x Hx.
    rewrite (dvdt_eval c x 0 0 (k_air c)); auto.
    - field. exact Hm.
    - rewrite V_immerge_brutal by exact Hb.
      destruct (Rge_dec x 0); [lra | reflexivity].
    - rewrite k_effectif_brutal by exact Hb.
      destruct (Rge_dec x 0); [lra | reflexivity]. }
  assert (H0 : dvdt c 0 0 = g c - rho_eau c * g c * V_total c / m c).
  { rewrite (dvdt_eval c 0 0 (V_total c) (k_eau c)); auto.
    - field. exact Hm.
    - rewrite V_immerge_brutal by exact Hb.
      destruct (Rge_dec 0 0); [reflexivity | lra].
    - rewrite k_effectif_brutal by exact Hb.
      destruct (Rge_dec 0 0); [reflexivity | lra]. }
  split; [exact Hneg | split; [exact H0 |]].
  intros Hne.
  apply (step_not_continuous _ (g c)
           (g c - rho_eau c * g c * V_total c / m c) Hneg H0).
  intros Heq.
  assert (Hz : rho_eau c * g c * V_total c / m c = 0) by lra.
  apply Hne.
  replace (rho_eau c * g c * V_total c)
    with (rho_eau c * g c * V_total c / m c * m c) by (field; exact Hm).
  rewrite Hz. ring.
Qed.

Lemma abrupt_acceleration_jump_witness :
  ~ continuity_pt (fun x => dvdt ech1_brutal x 0) 0.
Proof.
  destruct (abrupt_acceleration_jump ech1_brutal eq_refl) as (_ & _ & Hj).
  - cbn. lra.
  - apply Hj. destruct ech1_brutal_constants as [HV _].
    cbn [rho_eau g ech1_brutal].
    intros H. apply HV.
    apply Rmult_integral in H as [H | H]; [lra | exact H].
Defined.

(** ** Bounds on the acceleration *)

(** X9.  Valid configuration: [system] succeeds; above the surface there is
    no buoyancy and the drag uses [k_air], in both immersion modes; and
    while the body moves downwards its acceleration is at most [g]. *)
Theorem descending_acceleration_bound (c : Config) (t z v : R) :
  valid_config c ->
  exists a : R,
    system c t (z, v) = Val (v, a) /\
    (z < 0 -> a = g c - k_air c * v * Rabs v / m c) /\
    (0 <= v -> a <= g c).
Proof.
  intros Hv.
  destruct (k_effectif_positive c z Hv) as [k [Hk Hkpos]].
  destruct Hv as (Hm & Hr & Hcd & Hg & Hre & Hra & Hh0 & Hh).
  destruct (V_immerge_range c z Hh0) as [V [HV [HV0 _]]].
  assert (Hm0 : m c <> 0) by lra.
  eexists. split; [apply (system_eval c t z v V k HV Hk Hm0) | split].
  - intros Hz.
    assert (V = 0 /\ k = k_air c) as [-> ->].
    { destruct (CHOC_BRUTAL c) eqn:Hb.
      - rewrite V_immerge_brutal in HV by exact Hb.
        rewrite k_effectif_brutal in Hk by exact Hb.
        destruct (Rge_dec z 0); [lra |]. split; congruence.
      - rewrite V_immerge_air in HV by (auto; lra).
        rewrite k_effectif_air in Hk by (auto; lra). split; congruence. }
    field. exact Hm0.
  - intros Hv0. rewrite (Rabs_right v) by lra.
    assert (H1 : 0 <= rho_eau c * g c * V).
    { apply Rmult_le_pos; [| exact HV0]. left. apply Rmult_lt_0_compat; lra. }
    assert (H2 : 0 <= k * v * v).
    { rewrite Rmult_assoc. apply Rmult_le_pos; [lra |]. nra. }
    apply Rmult_le_reg_r with (m c); [exact Hm |].
    unfold Rdiv. rewrite Rmult_assoc, Rinv_l by exact Hm0. lra.
Qed.

Lemma descending_acceleration_bound_witness :
  exists a : R,
    system bfs_reel 0 (-5, 3) = Val (3, a) /\
    (-5 < 0 -> a = g bfs_reel - k_air bfs_reel * 3 * Rabs 3 / m bfs_reel) /\
    (0 <= 3 -> a <= g bfs_reel).
Proof.
  apply (descending_acceleration_bound bfs_reel 0 (-5) 3). exact bfs_reel_valid.
Defined.

(** * Further properties of the extraction *)

(** ** Reductions *)

Lemma fold_left_Rmax_spec (l : list R) :
  forall x : R,
    (fold_left Rmax l x = x \/ In (fold_left Rmax l x) l) /\
    x <= fold_left Rmax l x /\
    (forall y : R, In y l -> y <= fold_left Rmax l x).
Proof.
  induction l as [| a l IH]; intros x; simpl.
  - split; [left; reflexivity | split; [lra | intros y []]].
  - destruct (IH (Rmax x a)) as (Hin & Hle & Hall).
    pose proof (Rmax_l x a) as Hl. pose proof (Rmax_r x a) as Hr.
    split; [| split].
    + destruct Hin as [Heq | Hin]; [| right; right; exact Hin].
      rewrite Heq. unfold Rmax. destruct (Rle_dec x a); auto.
    + lra.
    + intros y [Hy | Hy]; [subst y; lra | apply Hall; exact Hy].
Qed.

Lemma fold_left_Rmin_spec (l : list R) :
  forall x : R,
    (fold_left Rmin l x = x \/ In (fold_left Rmin l x) l) /\
    fold_left Rmin l x <= x /\
    (forall y : R, In y l -> fold_left Rmin l x <= y).
Proof.
  induction l as [| a l IH]; intros x; simpl.
  - split; [left; reflexivity | split; [lra | intros y []]].
  - destruct (IH (Rmin x a)) as (Hin & Hle & Hall).
    pose proof (Rmin_l x a) as Hl. pose proof (Rmin_r x a) as Hr.
    split; [| split].
    + destruct Hin as [Heq | Hin]; [| right; right; exact Hin].
      rewrite Heq. unfold Rmin. destruct (Rle_dec x a); auto.
    + lra.
    + intros y [Hy | Hy]; [subst y; lra | apply Hall; exact Hy].
Qed.

Lemma np_max_spec (l : list R) (x : R) :
  np_max l = Val x -> In x l /\ forall y : R, In y l -> y <= x.
Proof.
  destruct l as [| a l]; simpl; intros H; [discriminate |].
  injection H as <-.
  destruct (fold_left_Rmax_spec l a) as (Hin & Hle & Hall).
  split.
  - destruct Hin as [Heq | Hin]; [left; symmetry; exact Heq | right; exact Hin].
  - intros y [Hy | Hy]; [subst y; exact Hle | apply Hall; exact Hy].
Qed.

Lemma np_min_spec (l : list R) (x : R) :
  np_min l = Val x -> In x l /\ forall y : R, In y l -> x <= y.
Proof.
  destruct l as [| a l]; simpl; intros H; [discriminate |].
  injection H as <-.
  destruct (fold_left_Rmin_spec l a) as (Hin & Hle & Hall).
  split.
  - destruct Hin as [Heq | Hin]; [left; symmetry; exact Heq | right; exact Hin].
  - intros y [Hy | Hy]; [subst y; exact Hle | apply Hall; exact Hy].
Qed.

(** ** What a successful extraction went through *)

Lemma extract_inv (c : Config) (sol : Trajectory) (M : ImpactMetrics) :
  extract c sol = Val M ->
  exists a : list R,
    accel c sol = Val a /\
    np_max (sol_v sol) = Val (v_max M) /\
    rho_air c * A c * C_d c <> 0 /\
    0 <= terminal_quotient c /\
    v_terminal M = sqrt (terminal_quotient c) /\
    v_terminal M <> 0 /\
    np_min a = Val (a_max M) /\
    a_max_g M = Rabs (a_max M) / 9.81 /\
    pourcentage M = 100 * v_max M / v_terminal M /\
    np_argmax_bool (map ge0 (sol_z sol)) = Val (idx_eau M) /\
    index (sol_t sol) (idx_eau M) = Val (t_eau M) /\
    np_argmin a = Val (idx_a_max M) /\
    index (sol_t sol) (idx_a_max M) = Val (t_a_max M) /\
    duree_impact M = t_a_max M - t_eau M /\
    np_max (sol_z sol) = Val (prof_max M) /\
    index (sol_z sol) (idx_a_max M) = Val (prof_choc M).
Proof.
  intros H. unfold extract in H. unfold terminal_quotient.
  destruct (accel c sol) as [a | e] eqn:Ha; cbn [bind] in H;
    [| discriminate].
  destruct (np_max (sol_v sol)) as [vm | e] eqn:Hvm; cbn [bind] in H;
    [| discriminate].
  destruct (div_cases (2 * m c * g c) (rho_air c * A c * C_d c))
    as [[Hden Hd] | [Hden Hd]]; rewrite Hd in H; cbn [bind] in H;
    [| discriminate].
  unfold np_sqrt in H.
  destruct (Rlt_dec (2 * m c * g c / (rho_air c * A c * C_d c)) 0)
    as [Hq | Hq]; cbn [bind] in H; [discriminate |].
  destruct (np_min a) as [am | e] eqn:Ham; cbn [bind] in H; [| discriminate].
  destruct (div_cases (100 * vm)
              (sqrt (2 * m c * g c / (rho_air c * A c * C_d c))))
    as [[Hvt Hd2] | [Hvt Hd2]]; rewrite Hd2 in H; cbn [bind] in H;
    [| discriminate].
  destruct (np_argmax_bool (map ge0 (sol_z sol))) as [ie | e] eqn:Hie;
    cbn [bind] in H; [| discriminate].
  destruct (index (sol_t sol) ie) as [te | e] eqn:Hte; cbn [bind] in H;
    [| discriminate].
  destruct (np_argmin a) as [ia | e] eqn:Hia; cbn [bind] in H;
    [| discriminate].
  destruct (index (sol_t sol) ia) as [ta | e] eqn:Hta; cbn [bind] in H;
    [| discriminate].
  destruct (np_max (sol_z sol)) as [zm | e] eqn:Hzm; cbn [bind] in H;
    [| discriminate].
  destruct (index (sol_z sol) ia) as [zc | e] eqn:Hzc; cbn [bind] in H;
    [| discriminate].
  injection H as <-. cbn.
  exists a. repeat split; auto. lra.
Qed.

Lemma in_sol_z (sol : Trajectory) (x : R) :
  In x (sol_z sol) <-> exists s, In s sol /\ s_z s = x.
Proof.
  unfold sol_z. rewrite in_map_iff. split; intros (s & H1 & H2); eauto.
Qed.

Lemma in_sol_v (sol : Trajectory) (x : R) :
  In x (sol_v sol) <-> exists s, In s sol /\ s_v s = x.
Proof.
  unfold sol_v. rewrite in_map_iff. split; intros (s & H1 & H2); eauto.
Qed.

Lemma index_sol_z (sol : Trajectory) (i : nat) (x : R) :
  index (sol_z sol) i = Val x ->
  exists s, nth_error sol i = Some s /\ s_z s = x.
Proof.
  intros H. apply index_val in H. unfold sol_z in H.
  rewrite nth_error_map in H.
  destruct (nth_error sol i) as [s |]; [| discriminate].
  exists s. split; [reflexivity |]. simpl in H. congruence.
Qed.

Lemma index_sol_t (sol : Trajectory) (i : nat) (x : R) :
  index (sol_t sol) i = Val x ->
  exists s, nth_error sol i = Some s /\ s_t s = x.
Proof.
  intros H. apply index_val in H. unfold sol_t in H.
  rewrite nth_error_map in H.
  destruct (nth_error sol i) as [s |]; [| discriminate].
  exists s. split; [reflexivity |]. simpl in H. congruence.
Qed.

(** ** Maximum depth and maximum velocity *)

(** X10.  When the extraction succeeds, [prof_max] and [v_max] are reached by a
    sample and are not exceeded by any, and the depth at the peak of
    deceleration is at most the maximum depth. *)
Theorem extract_maxima (c : Config) (sol : Trajectory) (M : ImpactMetrics) :
  extract c sol = Val M ->
  (forall s : Sample, In s sol ->
     s_z s <= prof_max M /\ s_v s <= v_max M) /\
  (exists s : Sample, In s sol /\ s_z s = prof_max M) /\
  (exists s : Sample, In s sol /\ s_v s = v_max M) /\
  prof_choc M <= prof_max M.
Proof.
  intros H. destruct (extract_inv c sol M H)
    as (a & _ & Hvm & _ & _ & _ & _ & _ & _ & _ & _ & _ & _ & _ & _ & Hzm & Hzc).
  destruct (np_max_spec _ _ Hvm) as [Hvin Hvall].
  destruct (np_max_spec _ _ Hzm) as [Hzin Hzall].
  split; [| split; [| split]].
  - intros s Hs. split.
    + apply Hzall. apply in_sol_z. eauto.
    + apply Hvall. apply in_sol_v. eauto.
  - apply in_sol_z. exact Hzin.
  - apply in_sol_v. exact Hvin.
  - destruct (index_sol_z _ _ _ Hzc) as (s & Hs & Hz).
    rewrite <- Hz. apply Hzall. apply in_sol_z.
    exists s. split; [eapply nth_error_In; exact Hs | reflexivity].
Qed.

(** ** The peak of deceleration *)

(** X11.  When the extraction succeeds, [a_max] is the acceleration stored at
    index [idx_a_max], no acceleration of the trajectory is below it, and
    it is the value the force law returns at the state of the sample whose
    time and depth are reported as [t_a_max] and [prof_choc]. *)
Theorem extract_peak_sample (c : Config) (sol : Trajectory) (M : ImpactMetrics) :
  extract c sol = Val M ->
  exists (a : list R) (s : Sample),
    accel c sol = Val a /\
    nth_error a (idx_a_max M) = Some (a_max M) /\
    (forall y : R, In y a -> a_max M <= y) /\
    nth_error sol (idx_a_max M) = Some s /\
    t_a_max M = s_t s /\ prof_choc M = s_z s /\
    (forall t : R, system c t (s_z s, s_v s) = Val (s_v s, a_max M)) /\
    0 <= a_max_g M.
Proof.
  intros H. destruct (extract_inv c sol M H)
    as (a & Ha & _ & _ & _ & _ & _ & Ham & Hg & _ & _ & _ & Hia & Hta & _
        & _ & Hzc).
  destruct (np_min_spec _ _ Ham) as [Hin Hall].
  assert (Hane : a <> []) by (destruct a; [contradiction | discriminate]).
  destruct (np_argmin_spec a Hane) as (j & x & Hj & Hx & Hmin & _).
  assert (j = idx_a_max M) by congruence. subst j.
  assert (Hxa : x = a_max M).
  { apply Rle_antisym.
    - apply Hmin. exact Hin.
    - apply Hall. eapply nth_error_In. exact Hx. }
  subst x.
  destruct (index_sol_t _ _ _ Hta) as (s & Hs & Ht).
  destruct (index_sol_z _ _ _ Hzc) as (s' & Hs' & Hz).
  assert (s' = s) by congruence. subst s'.
  destruct (accel_nth c sol a Ha) as [_ Hnth].
  destruct (Hnth _ _ Hs) as (V & k & HV & Hk & Hm & Hai).
  exists a, s.
  split; [exact Ha | split; [exact Hx | split; [exact Hall |]]].
  split; [exact Hs | split; [auto | split; [auto | split]]].
  - intros t. rewrite (system_eval c t _ _ V k HV Hk Hm). congruence.
  - rewrite Hg. apply Rmult_le_pos; [apply Rabs_pos | lra].
Qed.

(** ** Terminal velocity *)


(** ** The sign of the impact duration *)

(** X13.  When the extraction succeeds on a trajectory whose times increase
    strictly, the impact duration is negative exactly when the peak of
    deceleration comes before the contact index, and zero exactly when
    the two indices coincide. *)
Theorem duration_sign (c : Config) (sol : Trajectory) (M : ImpactMetrics) :
  extract c sol = Val M -> ascending sol ->
  (duree_impact M < 0 <-> (idx_a_max M < idx_eau M)%nat) /\
  (duree_impact M = 0 <-> idx_a_max M = idx_eau M) /\
  (0 < duree_impact M <-> (idx_eau M < idx_a_max M)%nat).
Proof.
  intros H Hasc. destruct (extract_inv c sol M H)
    as (a & _ & _ & _ & _ & _ & _ & _ & _ & _ & _ & Hte & _ & Hta & Hd & _).
  destruct (index_sol_t _ _ _ Hte) as (si & Hsi & Hti).
  destruct (index_sol_t _ _ _ Hta) as (sj & Hsj & Htj).
  rewrite Hd, <- Hti, <- Htj.
  destruct (lt_eq_lt_dec (idx_eau M) (idx_a_max M)) as [[Hlt | Heq] | Hgt].
  - pose proof (Hasc _ _ _ _ Hlt Hsi Hsj) as Ht.
    repeat split; intros; try lia; try lra.
  - assert (si = sj) by congruence. subst sj.
    repeat split; intros; try lia; try lra.
  - pose proof (Hasc _ _ _ _ Hgt Hsj Hsi) as Ht.
    repeat split; intros; try lia; try lra.
Qed.

(** ** The outcomes of the extraction *)

Lemma system_accel_error (c : Config) (s : Sample) (e : error) :
  system_accel c s = Raise e -> e = ZeroDivisionError.
Proof.
  rewrite system_accel_unfold.
  destruct (V_immerge_total c (s_z s)) as [V HV]. rewrite HV. cbn [bind].
  destruct (k_effectif c (s_z s)) as [k | e'] eqn:Hk; cbn [bind].
  - apply div_error.
  - intros H. injection H as <-. eapply k_effectif_error. exact Hk.
Qed.

Lemma accel_error (c : Config) (sol : Trajectory) (e : error) :
  accel c sol = Raise e -> e = ZeroDivisionError.
Proof.
  rewrite accel_refines_system. unfold accel_by_system.
  apply mapM_error. apply system_accel_error.
Qed.

Lemma extract_empty (c : Config) : extract c [] = Raise ValueError.
Proof. reflexivity. Qed.

Lemma accel_nonempty (c : Config) (sol : Trajectory) (a : list R) :
  sol <> [] -> accel c sol = Val a -> a <> [].
Proof.
  intros Hne Ha. destruct (accel_nth c sol a Ha) as [Hlen _].
  destruct a; [| discriminate]. destruct sol; [congruence | discriminate].
Qed.

(** The extraction from its last fallible division on: with the
    accelerations computed and a terminal velocity that is not 0, every
    search and every indexing succeeds. *)
Lemma extract_tail (c : Config) (sol : Trajectory) (a : list R) :
  sol <> [] -> accel c sol = Val a ->
  rho_air c * A c * C_d c <> 0 -> 0 < terminal_quotient c ->
  exists M : ImpactMetrics, extract c sol = Val M.
Proof.
  intros Hne Ha Hden Hq. unfold terminal_quotient in Hq.
  destruct (accel_nth c sol a Ha) as [Hlen _].
  pose proof (accel_nonempty c sol a Hne Ha) as Hane.
  assert (Hsq : 0 < sqrt (2 * m c * g c / (rho_air c * A c * C_d c)))
    by (apply sqrt_lt_R0; exact Hq).
  assert (Hi : exists i si,
             np_argmax_bool (map ge0 (sol_z sol)) = Val i /\
             nth_error sol i = Some si).
  { destruct sol as [| s0 sol']; [congruence |].
    unfold np_argmax_bool, sol_z. cbn [map].
    destruct (first_true (ge0 (s_z s0) :: map ge0 (map s_z sol')))
      as [i |] eqn:Hft.
    - apply first_true_some in Hft as [Hn _].
      assert (Hi : (i < List.length (s0 :: sol'))%nat).
      { apply nth_error_lt in Hn. cbn [List.length] in *.
        rewrite !length_map in Hn. exact Hn. }
      destruct (nth_error_sample _ _ Hi) as [si Hsi]. eauto.
    - exists 0%nat, s0. split; reflexivity. }
  destruct Hi as (i & si & Hargmax & Hsi).
  destruct (np_argmin_spec a Hane) as (j & x & Hargmin & Hx & _).
  assert (Hj : (j < List.length sol)%nat).
  { rewrite <- Hlen. eapply nth_error_lt. exact Hx. }
  destruct (nth_error_sample _ _ Hj) as [sj Hsj].
  assert (Hvmax : exists vm, np_max (sol_v sol) = Val vm).
  { destruct sol; [congruence |]. eexists; reflexivity. }
  assert (Hzmax : exists zm, np_max (sol_z sol) = Val zm).
  { destruct sol; [congruence |]. eexists; reflexivity. }
  assert (Hamin : exists am, np_min a = Val am).
  { destruct a; [congruence |]. eexists; reflexivity. }
  destruct Hvmax as [vm Hvm]. destruct Hzmax as [zm Hzm].
  destruct Hamin as [am Ham].
  unfold extract.
  rewrite Ha; cbn [bind].
  rewrite Hvm; cbn [bind].
  rewrite (div_nonzero _ _ Hden); cbn [bind].
  unfold np_sqrt.
  destruct (Rlt_dec (2 * m c * g c / (rho_air c * A c * C_d c)) 0); [lra |].
  cbn [bind].
  rewrite Ham; cbn [bind].
  rewrite div_nonzero by lra; cbn [bind].
  rewrite Hargmax; cbn [bind].
  rewrite (sol_t_nth _ _ _ Hsi); cbn [bind].
  rewrite Hargmin; cbn [bind].
  rewrite (sol_t_nth _ _ _ Hsj); cbn [bind].
  rewrite Hzm; cbn [bind].
  rewrite (sol_z_nth _ _ _ Hsj); cbn [bind].
  eexists. reflexivity.
Qed.

(** On a trajectory that is not empty the extraction returns metrics or
    stops on a division by zero or on the square root of a negative
    number. *)
Lemma extract_cases (c : Config) (sol : Trajectory) :
  sol <> [] ->
  (exists M : ImpactMetrics, extract c sol = Val M) \/
  extract c sol = Raise ZeroDivisionError \/
  extract c sol = Raise InvalidValue.
Proof.
  intros Hne.
  destruct (accel c sol) as [a | e] eqn:Ha.
  - destruct (Req_dec_T (rho_air c * A c * C_d c) 0) as [Hden | Hden].
    + right; left. unfold extract. rewrite Ha; cbn [bind].
      destruct sol as [| s0 sol']; [congruence |].
      unfold sol_v, np_max; cbn [map bind].
      rewrite Hden, div_zero. reflexivity.
    + destruct (Rlt_dec (terminal_quotient c) 0) as [Hq | Hq].
      * right; right. unfold extract. rewrite Ha; cbn [bind].
        destruct sol as [| s0 sol']; [congruence |].
        unfold sol_v, np_max; cbn [map bind].
        rewrite (div_nonzero _ _ Hden); cbn [bind].
        unfold np_sqrt, terminal_quotient in *.
        destruct (Rlt_dec (2 * m c * g c / (rho_air c * A c * C_d c)) 0);
          [reflexivity | contradiction].
      * destruct (Req_dec_T (terminal_quotient c) 0) as [Hq0 | Hq0].
        -- right; left. unfold extract. rewrite Ha; cbn [bind].
           pose proof (accel_nonempty c sol a Hne Ha) as Hane.
           destruct sol as [| s0 sol']; [congruence |].
           destruct a as [| a0 a']; [congruence |].
           unfold sol_v, np_max, np_min; cbn [map bind].
           rewrite (div_nonzero _ _ Hden); cbn [bind].
           unfold np_sqrt, terminal_quotient in *.
           destruct (Rlt_dec (2 * m c * g c / (rho_air c * A c * C_d c)) 0);
             [contradiction |].
           cbn [bind]. rewrite Hq0, sqrt_0, div_zero. reflexivity.
        -- left. apply (extract_tail c sol a); auto. lra.
  - right; left. pose proof (accel_error c sol e Ha). subst e.
    unfold extract. rewrite Ha. reflexivity.
Qed.


(** X15.  The extraction never indexes out of range, and it raises the error
    of an empty reduction exactly on the empty trajectory. *)
Theorem extract_error_kinds (c : Config) (sol : Trajectory) :
  extract c sol <> Raise IndexError /\
  (extract c sol = Raise ValueError <-> sol = []).
Proof.
  destruct sol as [| s0 sol'].
  - rewrite extract_empty. split; [discriminate | split; reflexivity].
  - assert (Hne : s0 :: sol' <> []) by discriminate.
    destruct (extract_cases c (s0 :: sol') Hne) as [[M H] | [H | H]];
      rewrite H; split; try discriminate; split; intros; discriminate.
Qed.

(** ** Where the acceleration pass fails *)





(** ** The further properties at the presets *)

Lemma V_immerge_never_fails_witness :
  exists V : R, V_immerge ech2_cone 1 = Val V /\ V = V_total ech2_cone.
Proof.
  destruct (V_immerge_never_fails ech2_cone 1) as (V & HV & _ & Hfull).
  exists V. split; [exact HV |].
  apply Hfull; unfold h_ref; cbn; lra.
Defined.


Lemma sol_wet_ascending : ascending sol_wet.
Proof.
  intros i j si sj Hij Hi Hj.
  destruct i as [| [| [| i]]]; destruct j as [| [| [| j]]];
    try lia; cbn in Hi, Hj;
    try (destruct i; discriminate); try (destruct j; discriminate);
    injection Hi as <-; injection Hj as <-; cbn; lra.
Qed.

Lemma sol_wet_extract : exists M : ImpactMetrics, extract bfs_reel sol_wet = Val M.
Proof.
  destruct (extract_run bfs_reel sol_wet bfs_reel_valid)
    as (a & i & j & si & sj & M & _ & _ & _ & _ & _ & HM & _);
    [discriminate | eauto].
Qed.

Lemma extract_maxima_witness :
  exists M : ImpactMetrics,
    extract bfs_reel sol_wet = Val M /\ prof_choc M <= prof_max M /\
    2 <= prof_max M.
Proof.
  destruct sol_wet_extract as [M HM]. exists M.
  destruct (extract_maxima bfs_reel sol_wet M HM) as (Hall & _ & _ & Hc).
  split; [exact HM | split; [exact Hc |]].
  apply (Hall {| s_t := 2; s_z := 2; s_v := 1 |}).
  right. right. left. reflexivity.
Defined.

Lemma extract_peak_sample_witness :
  exists (M : ImpactMetrics) (a : list R) (s : Sample),
    extract bfs_reel sol_wet = Val M /\
    nth_error a (idx_a_max M) = Some (a_max M) /\
    nth_error sol_wet (idx_a_max M) = Some s /\
    system bfs_reel 0 (s_z s, s_v s) = Val (s_v s, a_max M).
Proof.
  destruct sol_wet_extract as [M HM].
  destruct (extract_peak_sample bfs_reel sol_wet M HM)
    as (a & s & _ & Hn & _ & Hs & _ & _ & Hsys & _).
  exists M, a, s. split; [exact HM | split; [exact Hn | split; [exact Hs |]]].
  apply Hsys.
Defined.


Lemma duration_sign_witness :
  exists M : ImpactMetrics,
    extract bfs_reel sol_wet = Val M /\
    (duree_impact M < 0 <-> (idx_a_max M < idx_eau M)%nat).
Proof.
  destruct sol_wet_extract as [M HM]. exists M.
  split; [exact HM |].
  apply (duration_sign bfs_reel sol_wet M HM sol_wet_ascending).
Defined.

